(** * The catalog generator (scripts/generate-catalog.py)

    A shallow embedding of the script that scans the rules, skills and
    agents of the library, reads the frontmatter of every file and renders
    [docs/CATALOG.md], followed by the properties its description states.

    Text is modelled as [string], the sequence of bytes of its UTF-8
    encoding.  The character classes of the three regular expressions and
    of [str.strip], [str.split] and [str.title] are the ones CPython uses on
    the ASCII range; a byte above 127 is taken as a caseless character that
    is neither white space nor a word character.  Outside ASCII the classes
    of CPython are wider (a no-break space is white space, an accented
    letter is a cased word character), so a statement that spells out what
    these classes do to a text is made for a text that [str.isascii]
    accepts.

    The script is taken to run on a POSIX system: a path is its components
    joined by a slash, and [write_text] writes a newline as it stands. *)

From Stdlib Require Import Ascii DecimalString.
From stdpp Require Import gmap strings list sorting.

(** ** Characters *)

Definition NL : ascii := "010"%char.
Definition DQ : ascii := "034"%char.
Definition SQ : ascii := "039"%char.
Definition BS : ascii := "092"%char.
Definition CR : ascii := "013"%char.

Definition between (lo hi : N) (c : ascii) : bool :=
  let n := N_of_ascii c in ((lo <=? n) && (n <=? hi))%N.

(** [str.isspace] on one character of ASCII; also the class [\s] there. *)
Definition isspace (c : ascii) : bool := between 9 13 c || between 28 32 c.

(** The character is one of the 128 of ASCII. *)
Definition isascii (c : ascii) : bool := between 0 127 c.

Definition isupper (c : ascii) : bool := between 65 90 c.
Definition islower (c : ascii) : bool := between 97 122 c.
Definition isdigit (c : ascii) : bool := between 48 57 c.

(** The class [\w] on ASCII. *)
Definition isword (c : ascii) : bool :=
  isupper c || islower c || isdigit c || Ascii.eqb c "_".

(** The two cases of a letter of ASCII. *)
Definition lower (c : ascii) : ascii :=
  if isupper c then ascii_of_N (N_of_ascii c + 32) else c.
Definition upper (c : ascii) : ascii :=
  if islower c then ascii_of_N (N_of_ascii c - 32) else c.

(** ** The methods of [str] the script calls *)

Module Str.

Definition is_empty (s : string) : bool :=
  match s with EmptyString => true | String _ _ => false end.

Fixpoint lstrip (s : string) : string :=
  match s with
  | EmptyString => EmptyString
  | String c s' => if isspace c then lstrip s' else s
  end.

Fixpoint rstrip (s : string) : string :=
  match s with
  | EmptyString => EmptyString
  | String c s' =>
      let r := rstrip s' in
      if is_empty r && isspace c then EmptyString else String c r
  end.

(** [s.isascii()] *)
Fixpoint isascii (s : string) : bool :=
  match s with
  | EmptyString => true
  | String c s' => between 0 127 c && isascii s'
  end.

(** [s.strip()] *)
Definition strip (s : string) : string := rstrip (lstrip s).

Definition startswith (p s : string) : bool := String.prefix p s.

(** [s.endswith(suf)] *)
Fixpoint endswith (suf s : string) : bool :=
  String.eqb s suf ||
  match s with
  | EmptyString => false
  | String _ s' => endswith suf s'
  end.

(** [s[:n]] *)
Fixpoint take (n : nat) (s : string) : string :=
  match n, s with
  | S n', String c s' => String c (take n' s')
  | _, _ => EmptyString
  end.

(** [s[1:-1]] *)
Fixpoint drop_last (s : string) : string :=
  match s with
  | EmptyString => EmptyString
  | String c s' => if is_empty s' then EmptyString else String c (drop_last s')
  end.

Definition strip_ends (s : string) : string :=
  match s with
  | EmptyString => EmptyString
  | String _ s' => drop_last s'
  end.

(** [s[-1]], when there is one *)
Fixpoint last_char (s : string) : option ascii :=
  match s with
  | EmptyString => None
  | String c s' => if is_empty s' then Some c else last_char s'
  end.

(** [sep.join(l)] *)
Fixpoint join (sep : string) (l : list string) : string :=
  match l with
  | [] => EmptyString
  | x :: l' => if decide (l' = []) then x else x +:+ sep +:+ join sep l'
  end.

(** [s.split(sep)] for a one-character separator, as the first piece and the
    pieces after it: the result of [split] is never empty. *)
Fixpoint split_pieces (sep : ascii) (s : string) : string * list string :=
  match s with
  | EmptyString => (EmptyString, [])
  | String c s' =>
      let '(h, t) := split_pieces sep s' in
      if Ascii.eqb c sep then (EmptyString, h :: t) else (String c h, t)
  end.

Definition split (sep : ascii) (s : string) : list string :=
  let '(h, t) := split_pieces sep s in h :: t.

Definition cons_word (w : string) (ws : list string) : list string :=
  if is_empty w then ws else w :: ws.

(** [s.split()]: the maximal runs of characters that are not white space.
    The first component is the word that is still open at the left end. *)
Fixpoint words_pieces (s : string) : string * list string :=
  match s with
  | EmptyString => (EmptyString, [])
  | String c s' =>
      let '(h, t) := words_pieces s' in
      if isspace c then (EmptyString, cons_word h t) else (String c h, t)
  end.

Definition split_ws (s : string) : list string :=
  let '(h, t) := words_pieces s in cons_word h t.

(** [s.replace(old, new)] for a non-empty [old] (the script only passes
    literals of two and three characters): occurrences are taken from left
    to right and do not overlap.  [skip] counts the characters of the
    occurrence found last that are still to be passed over. *)
Fixpoint replace_go (skip : nat) (old new s : string) : string :=
  match s with
  | EmptyString => EmptyString
  | String c s' =>
      match skip with
      | S k => replace_go k old new s'
      | O =>
          if String.prefix old s
          then new +:+ replace_go (String.length old - 1) old new s'
          else String c (replace_go 0 old new s')
      end
  end.

Definition replace (old new s : string) : string := replace_go 0 old new s.

(** [s.title()] for a text in ASCII: a cased character is upper-cased when
    the character before it is not cased and lower-cased when it is. *)
Fixpoint title_go (prev_cased : bool) (s : string) : string :=
  match s with
  | EmptyString => EmptyString
  | String c s' =>
      if islower c then
        String (if prev_cased then c else upper c) (title_go true s')
      else if isupper c then
        String (if prev_cased then lower c else c) (title_go true s')
      else String c (title_go false s')
  end.

Definition title (s : string) : string := title_go false s.

(** The longest prefix whose characters satisfy [p], and what follows it. *)
Fixpoint span (p : ascii → bool) (s : string) : string * string :=
  match s with
  | EmptyString => (EmptyString, EmptyString)
  | String c s' =>
      if p c then let '(a, b) := span p s' in (String c a, b)
      else (EmptyString, s)
  end.

(** [str(n)] for a length. *)
Definition of_nat (n : nat) : string := NilZero.string_of_uint (Nat.to_uint n).

End Str.

(** ** The three regular expressions *)

Module Re.

(** What follows the literal [p] at the start of [s]. *)
Fixpoint after (p s : string) : option string :=
  match p with
  | EmptyString => Some s
  | String a p' =>
      match s with
      | String c s' => if Ascii.eqb c a then after p' s' else None
      | EmptyString => None
      end
  end.

(** The same under [re.IGNORECASE], for a text in ASCII. *)
Fixpoint after_ci (p s : string) : option string :=
  match p with
  | EmptyString => Some s
  | String a p' =>
      match s with
      | String c s' => if Ascii.eqb (lower c) (lower a) then after_ci p' s' else None
      | EmptyString => None
      end
  end.

(** [\b] behind a word character: the text ends or goes on with a
    character that is not a word character. *)
Definition word_end (s : string) : bool :=
  match s with
  | EmptyString => true
  | String c _ => negb (isword c)
  end.

(** [\s*\n] matches at the start of [s]. *)
Fixpoint ws_then_nl (s : string) : bool :=
  match s with
  | EmptyString => false
  | String c s' => isspace c && (ws_then_nl s' || Ascii.eqb c NL)
  end.

(** *** [FRONTMATTER_RE = \A---\s*\n(.*?\n)---\s*\n], with [re.DOTALL] *)

(** The closing [---\s*\n]. *)
Definition fm_close (s : string) : bool :=
  match after "---" s with
  | Some r => ws_then_nl r
  | None => false
  end.

(** The lazy group [(.*?\n)] followed by the closing delimiter: the
    shortest candidate is tried first. *)
Fixpoint fm_body (s : string) : option string :=
  match s with
  | EmptyString => None
  | String c s' =>
      if Ascii.eqb c NL && fm_close s' then Some (String c EmptyString)
      else String c <$> fm_body s'
  end.

(** The greedy [\s*\n] behind the opening [---]: the longest run of white
    space is tried first, and the matcher backs off one character at a
    time while the rest of the expression fails. *)
Fixpoint fm_open (s : string) : option string :=
  match s with
  | EmptyString => None
  | String c s' =>
      if isspace c then
        match fm_open s' with
        | Some b => Some b
        | None => if Ascii.eqb c NL then fm_body s' else None
        end
      else None
  end.

(** [FRONTMATTER_RE.match(text)], as [m.group(1)]. *)
Definition FRONTMATTER_RE (text : string) : option string :=
  match after "---" text with
  | Some r => fm_open r
  | None => None
  end.

(** *** [YAML_KEY_RE]: at the start of the line a word character and any
    number of word characters and hyphens (group 1), white space, a colon,
    white space, and the rest of the line (group 2)

    Every repetition is greedy and none has to back off: the character
    behind the key is white space or the colon, neither of which belongs to
    [[\w-]], the colon is not white space, and [.*] takes all that is left of
    the line. *)

Definition iskeychar (c : ascii) : bool := isword c || Ascii.eqb c "-".
Definition notnl (c : ascii) : bool := negb (Ascii.eqb c NL).

(** [YAML_KEY_RE.match(line)], as [(m.group(1), m.group(2))]. *)
Definition YAML_KEY_RE (line : string) : option (string * string) :=
  match line with
  | EmptyString => None
  | String c rest =>
      if isword c then
        let '(k, r1) := Str.span iskeychar rest in
        match Str.lstrip r1 with
        | String ":"%char r2 => Some (String c k, fst (Str.span notnl (Str.lstrip r2)))
        | _ => None
        end
      else None
  end.

(** *** [STOP_PATTERNS], with [re.IGNORECASE | re.MULTILINE] *)

Definition phrase_b (p s : string) : bool :=
  match after_ci p s with
  | Some r => word_end r
  | None => false
  end.

Definition phrase (p s : string) : bool :=
  match after_ci p s with
  | Some _ => true
  | None => false
  end.

(** The group of alternatives; [Recognizes?:] and [Triggers?:] are written
    as their two spellings. *)
Definition stop_alternatives (s : string) : bool :=
  phrase_b "Use when" s || phrase_b "Use before" s || phrase_b "Use this" s
  || phrase_b "Use proactively" s
  || phrase "Recognizes:" s || phrase "Recognize:" s
  || phrase "Triggers:" s || phrase "Trigger:" s
  || phrase "Usage:" s || phrase "Optional:" s || phrase "Cancel:" s
  || phrase "Activate when:" s.

(** [\s*(...)] at the start of [s]. *)
Fixpoint stop_here (s : string) : bool :=
  match s with
  | EmptyString => stop_alternatives s
  | String c s' => (isspace c && stop_here s') || stop_alternatives s
  end.

(** The leftmost position at or behind [i] at which the expression matches;
    [bol] says whether [^] holds at the start of [s]. *)
Fixpoint stop_search_from (bol : bool) (i : nat) (s : string) : option nat :=
  if bol && stop_here s then Some i
  else
    match s with
    | EmptyString => None
    | String c s' => stop_search_from (Ascii.eqb c NL) (S i) s'
    end.

(** [STOP_PATTERNS.search(s)], as [m.start()]. *)
Definition STOP_PATTERNS (s : string) : option nat := stop_search_from true 0 s.

End Re.

(** ** Frontmatter parsing *)

Definition _flush (lines : list string) : string :=
  Str.strip (Str.join (String NL EmptyString) lines).

(** The test for a quoted value: at least two characters, the first one
    a double or a single quote and the last one equal to the first. *)
Definition is_quoted (value : string) : bool :=
  match value with
  | String q (String _ _ as rest) =>
      (Ascii.eqb q DQ || Ascii.eqb q SQ)
      && bool_decide (Str.last_char rest = Some q)
  | _ => false
  end.

(** The escapes: a backslash and [n], and a backslash and a double quote,
    each also with the backslash doubled. *)
Definition esc_n : string := String BS "n".
Definition esc_esc_n : string := String BS (String BS "n").
Definition esc_q : string := String BS (String DQ EmptyString).
Definition esc_esc_q : string := String BS (String BS (String DQ EmptyString)).
Definition newline : string := String NL EmptyString.
Definition quote : string := String DQ EmptyString.

(** The chain of [replace] calls on a quoted value. *)
Definition unescape (value : string) : string :=
  Str.replace esc_q quote
    (Str.replace esc_esc_q quote
      (Str.replace esc_n newline
        (Str.replace esc_esc_n newline value))).

(** The variables of the loop of [_parse_yaml_flat]. *)
Record pstate := PState {
  result : gmap string string;
  current_key : option string;
  current_lines : list string;
  is_multiline : bool
}.

Definition flush_key (st : pstate) : gmap string string :=
  match current_key st with
  | Some k => <[k := _flush (current_lines st)]> (result st)
  | None => result st
  end.

(** The [elif] of the loop: a line of a multi-line value. *)
Definition continuation (st : pstate) (line : string) : pstate :=
  if is_multiline st && bool_decide (is_Some (current_key st))
  then PState (result st) (current_key st)
              (current_lines st ++ [Str.strip line]) (is_multiline st)
  else st.

(** One turn of the loop. *)
Definition parse_line (st : pstate) (line : string) : pstate :=
  match Re.YAML_KEY_RE line with
  | Some (k, v) =>
      if negb (is_multiline st && Str.startswith " " line) then
        let value := Str.strip v in
        if String.eqb value "|" then PState (flush_key st) (Some k) [] true
        else
          let value :=
            if is_quoted value then unescape (Str.strip_ends value) else value in
          PState (flush_key st) (Some k) [value] false
      else continuation st line
  | None => continuation st line
  end.

Definition parse_lines (lines : list string) : pstate :=
  fold_left parse_line lines (PState ∅ None [] false).

Definition _parse_yaml_flat (raw : string) : gmap string string :=
  flush_key (parse_lines (Str.split NL raw)).

(** [parse_frontmatter], given the text of the file. *)
Definition parse_frontmatter (text : string) : option (gmap string string) :=
  _parse_yaml_flat <$> Re.FRONTMATTER_RE text.

(** ** The description of a catalog row *)

Definition extract_catalog_description (raw_description : string) : string :=
  let raw_description :=
    match Re.STOP_PATTERNS raw_description with
    | Some start => Str.take start raw_description
    | None => raw_description
    end in
  let desc := Str.strip (Str.join " " (Str.split_ws raw_description)) in
  if negb (Str.is_empty desc) && negb (Str.endswith "." desc)
  then desc +:+ "." else desc.

(** ** The repository on disk

    A file is the components of its path below [REPO_ROOT] and its content,
    the bytes on disk, which are taken to be valid UTF-8.  A tree lists the
    regular files of the repository in the order the file system happens to
    enumerate them; its directories are the paths that have a file below
    them, so a tree holds no empty directory.  [REPO_ROOT] itself is given
    by the components of its absolute path behind the leading [/]. *)

Record file := File { parts : list string; content : string }.

(** The translation of line ends that text mode applies on reading
    ([newline=None]): a carriage return with the newline behind it, and a
    carriage return alone, are read as one newline. *)
Fixpoint universal_newlines (s : string) : string :=
  match s with
  | EmptyString => EmptyString
  | String c s' =>
      if Ascii.eqb c CR then
        match s' with
        | String d _ =>
            if Ascii.eqb d NL then universal_newlines s'
            else String NL (universal_newlines s')
        | EmptyString => String NL EmptyString
        end
      else String c (universal_newlines s')
  end.

(** What [f.read_text(encoding="utf-8")] returns for a file of the tree. *)
Definition text (f : file) : string := universal_newlines (content f).

(** [str(REPO_ROOT / p)] and [(REPO_ROOT / p).parts] *)
Definition abs_str (REPO_ROOT p : list string) : string :=
  "/" +:+ Str.join "/" (REPO_ROOT ++ p).
Definition abs_parts (REPO_ROOT p : list string) : list string :=
  "/" :: REPO_ROOT ++ p.

(** [f.name] *)
Definition f_name (f : file) : string := default EmptyString (last (parts f)).

(** [f.parent.name] *)
Definition parent_name (REPO_ROOT : list string) (f : file) : string :=
  default EmptyString (last (REPO_ROOT ++ removelast (parts f))).

(** The name split at its last dot. *)
Fixpoint rsplit_dot (s : string) : option (string * string) :=
  match s with
  | EmptyString => None
  | String c s' =>
      match rsplit_dot s' with
      | Some (a, b) => Some (String c a, b)
      | None => if Ascii.eqb c "." then Some (EmptyString, s') else None
      end
  end.

(** [f.stem]: the name without its last suffix, a suffix being a dot that
    is neither the first nor the last character, and what follows it. *)
Definition stem (f : file) : string :=
  match rsplit_dot (f_name f) with
  | Some (a, b) => if Str.is_empty a || Str.is_empty b then f_name f else a
  | None => f_name f
  end.

(** The order of [Path] objects: component by component, each as a string. *)
Fixpoint path_leb (p q : list string) : bool :=
  match p, q with
  | [], _ => true
  | _ :: _, [] => false
  | x :: p', y :: q' =>
      match String.compare x y with
      | Lt => true
      | Eq => path_leb p' q'
      | Gt => false
      end
  end.

Definition file_le (f g : file) : Prop := path_leb (parts f) (parts g).

(** [sorted(...)] of the files a glob yields; the paths alone are compared. *)
Definition sorted (l : list file) : list file := merge_sort file_le l.

(** The components of [f] below the directory [dir], when it lies there. *)
Fixpoint below (dir p : list string) : option (list string) :=
  match dir with
  | [] => Some p
  | d :: dir' =>
      match p with
      | x :: p' => if String.eqb x d then below dir' p' else None
      | [] => None
      end
  end.

(** [dir.glob("*.md")]: the files of [dir] itself whose name ends in [.md].
    A glob also yields a directory whose name matches; the trees considered
    have none, since reading one as a file would end the run. *)
Definition in_glob_md (dir : list string) (f : file) : bool :=
  match below dir (parts f) with
  | Some [n] => Str.endswith ".md" n
  | _ => false
  end.

Definition glob_md (dir : list string) (tree : list file) : list file :=
  filter (λ f, in_glob_md dir f) tree.

(** [dir.rglob("*.md")]: the same at any depth. *)
Definition in_rglob_md (dir : list string) (f : file) : bool :=
  match below dir (parts f) with
  | Some (_ :: _) => Str.endswith ".md" (f_name f)
  | _ => false
  end.

Definition rglob_md (dir : list string) (tree : list file) : list file :=
  filter (λ f, in_rglob_md dir f) tree.

(** [dir.rglob("SKILL.md")] *)
Definition in_rglob_skill (dir : list string) (f : file) : bool :=
  match below dir (parts f) with
  | Some (_ :: _) => String.eqb (f_name f) "SKILL.md"
  | _ => false
  end.

Definition rglob_skill (dir : list string) (tree : list file) : list file :=
  filter (λ f, in_rglob_skill dir f) tree.

(** [dir.exists()], which also holds of a regular file.  A tree holds no
    empty directories; for one the scanners that ask find no file and return
    the empty list all the same. *)
Definition dir_exists (dir : list string) (tree : list file) : bool :=
  bool_decide (Exists (λ f, is_Some (below dir (parts f))) tree).

(** ** Discovery *)

(** A catalog entry; [category] is set for the entries of [discover_agents]
    only. *)
Record entry := Entry {
  name : string;
  description : string;
  category : option string;
  path : string
}.

Definition SKILL_CATEGORY_ORDER : list string :=
  ["meta"; "build/backend"; "build/frontend"; "workflow"; "patterns"].

Definition SKILL_CATEGORY_DISPLAY : gmap string string :=
  list_to_map
    [("meta", "Meta");
     ("build/backend", "Build — Backend");
     ("build/frontend", "Build — Frontend");
     ("workflow", "Workflow");
     ("patterns", "Patterns")].

(** The frontmatter of a file that passes the guard
    [if not fm or "name" not in fm], with [fm["name"]]. *)
Definition checked_frontmatter (f : file) : option (string * gmap string string) :=
  match parse_frontmatter (text f) with
  | Some fm =>
      if bool_decide (fm = ∅) then None else (λ n, (n, fm)) <$> fm !! "name"
  | None => None
  end.

(** [extract_catalog_description(fm.get("description", ""))] *)
Definition catalog_description (fm : gmap string string) : string :=
  extract_catalog_description (default EmptyString (fm !! "description")).

(** [f"../{f.relative_to(REPO_ROOT)}"] *)
Definition rel_link (f : file) : string := "../" +:+ Str.join "/" (parts f).

Definition warning (REPO_ROOT : list string) (f : file) : string :=
  "WARNING: " +:+ abs_str REPO_ROOT (parts f) +:+ " has no frontmatter, skipping".

(** The scanners that warn carry the lines printed to [sys.stderr] next to
    the entries collected so far. *)
Definition rules_step (REPO_ROOT : list string)
    (acc : list entry * list string) (f : file) : list entry * list string :=
  match checked_frontmatter f with
  | None => (acc.1, acc.2 ++ [warning REPO_ROOT f])
  | Some (n, fm) =>
      (acc.1 ++ [Entry n (catalog_description fm) None ("../rules/" +:+ f_name f)],
       acc.2)
  end.

(** The loop [for f in ...] of [discover_rules]. *)
Definition rules_loop (REPO_ROOT : list string) (files : list file)
    : list entry * list string :=
  fold_left (rules_step REPO_ROOT) files ([], []).

Definition discover_rules (REPO_ROOT : list string) (tree : list file)
    : list entry * list string :=
  rules_loop REPO_ROOT (sorted (glob_md ["rules"] tree)).

(** [_skill_category]: the components between [skills] and the directory of
    the skill, joined by [/]. *)
Definition _skill_category (f : file) : string :=
  let rel := default [] (below ["skills"] (parts f)) in
  Str.join "/" (take (length rel - 2) rel).

Definition skills_step (REPO_ROOT : list string)
    (acc : gmap string (list entry) * list string) (f : file)
    : gmap string (list entry) * list string :=
  match checked_frontmatter f with
  | None => (acc.1, acc.2 ++ [warning REPO_ROOT f])
  | Some (n, fm) =>
      let cat := _skill_category f in
      (<[cat := default [] (acc.1 !! cat)
                  ++ [Entry n (catalog_description fm) None (rel_link f)]]> acc.1,
       acc.2)
  end.

Definition skills_loop (REPO_ROOT : list string) (files : list file)
    : gmap string (list entry) * list string :=
  fold_left (skills_step REPO_ROOT) files (∅, []).

Definition discover_skills (REPO_ROOT : list string) (tree : list file)
    : gmap string (list entry) * list string :=
  skills_loop REPO_ROOT (sorted (rglob_skill ["skills"] tree)).

Definition agents_step (REPO_ROOT : list string)
    (entries : list entry) (f : file) : list entry :=
  if bool_decide ("_archive" ∈ abs_parts REPO_ROOT (parts f)) then entries
  else if Str.endswith "-reference" (stem f) || String.eqb (f_name f) "README.md"
  then entries
  else
    match checked_frontmatter f with
    | None => entries
    | Some (n, fm) =>
        entries ++ [Entry n (catalog_description fm)
                      (Some (Str.title (parent_name REPO_ROOT f))) (rel_link f)]
    end.

Definition agents_loop (REPO_ROOT : list string) (files : list file)
    : list entry :=
  fold_left (agents_step REPO_ROOT) files [].

Definition discover_agents (REPO_ROOT : list string) (tree : list file)
    : list entry :=
  agents_loop REPO_ROOT (sorted (rglob_md ["agents"] tree)).

Definition custom_skills_step (entries : list entry) (f : file) : list entry :=
  match checked_frontmatter f with
  | None => entries
  | Some (n, fm) => entries ++ [Entry n (catalog_description fm) None (rel_link f)]
  end.

Definition custom_skills_loop (files : list file) : list entry :=
  fold_left custom_skills_step files [].

Definition discover_custom_skills (tree : list file) : list entry :=
  if negb (dir_exists ["custom"; "skills"] tree) then []
  else custom_skills_loop (sorted (rglob_skill ["custom"; "skills"] tree)).

Definition custom_agents_step (entries : list entry) (f : file) : list entry :=
  if String.eqb (f_name f) "README.md" then entries
  else custom_skills_step entries f.

Definition custom_agents_loop (files : list file) : list entry :=
  fold_left custom_agents_step files [].

Definition discover_custom_agents (tree : list file) : list entry :=
  if negb (dir_exists ["custom"; "agents"] tree) then []
  else custom_agents_loop (sorted (rglob_md ["custom"; "agents"] tree)).

(** ** Rendering *)

(** [f"| [{r['name']}]({r['path']}) | {r['description']} |"] *)
Definition row (e : entry) : string :=
  "| [" +:+ name e +:+ "](" +:+ path e +:+ ") | " +:+ description e +:+ " |".

(** The row of the agents table, with [a['category']]. *)
Definition agent_row (a : entry) : string :=
  "| [" +:+ name a +:+ "](" +:+ path a +:+ ") | "
  +:+ default EmptyString (category a) +:+ " | " +:+ description a +:+ " |".

(** [f"{title} ({n})"] *)
Definition counted (title : string) (n : nat) : string :=
  title +:+ " (" +:+ Str.of_nat n +:+ ")".

(** [sum(len(v) for v in skills_by_cat.values())] *)
Definition total_skills (skills_by_cat : gmap string (list entry)) : nat :=
  map_fold (λ _ v n, length v + n) 0 skills_by_cat.

(** The body of the loop over [SKILL_CATEGORY_ORDER]. *)
Definition skills_subsection (skills_by_cat : gmap string (list entry))
    (lines : list string) (cat_key : string) : list string :=
  let cat_skills := default [] (skills_by_cat !! cat_key) in
  if bool_decide (cat_skills = []) then lines
  else
    let display := default (Str.title cat_key) (SKILL_CATEGORY_DISPLAY !! cat_key) in
    lines
    ++ [counted ("### " +:+ display) (length cat_skills);
        EmptyString;
        "| Name | Description |";
        "|------|------------|"]
    ++ (row <$> cat_skills)
    ++ [EmptyString].

(** The list [lines] of [render_catalog], from what the five scanners found. *)
Definition render_lines (rules : list entry)
    (skills_by_cat : gmap string (list entry))
    (agents custom_skills custom_agents : list entry) : list string :=
  let lines :=
    (* Header *)
    ["<!-- AUTO-GENERATED by scripts/generate-catalog.py — do not edit manually -->";
     EmptyString;
     "# Skill Library — Catalog";
     EmptyString;
     "> [README](../README.md) | **CATALOG** | [SKILLS-EXPLAINED](SKILLS-EXPLAINED.md) | [ARTICLE](ARTICLE.md)";
     EmptyString;
     "> [!TIP]";
     "> To install any skill or agent below, see [Quickstart](../README.md#quickstart) in the README.";
     EmptyString] in
  let lines :=
    (* Rules *)
    lines
    ++ [counted "## Rules" (length rules);
        EmptyString;
        "*Always loaded — shape every interaction.*";
        EmptyString;
        "| Name | Description |";
        "|------|------------|"]
    ++ (row <$> rules)
    ++ [EmptyString; "---"; EmptyString] in
  let lines :=
    (* Skills *)
    lines
    ++ [counted "## Skills" (total_skills skills_by_cat);
        EmptyString;
        "*Load on demand — teach Claude specialized workflows.*";
        EmptyString] in
  let lines := fold_left (skills_subsection skills_by_cat) SKILL_CATEGORY_ORDER lines in
  let lines := lines ++ ["---"; EmptyString] in
  let lines :=
    (* Agents *)
    lines
    ++ [counted "## Agents" (length agents);
        EmptyString;
        "*Isolated subprocesses — zero parent context in, result out.*";
        EmptyString;
        "| Name | Category | Description |";
        "|------|----------|------------|"]
    ++ (agent_row <$> agents)
    ++ [EmptyString; "---"; EmptyString] in
  let lines :=
    (* Custom *)
    lines ++ ["## Custom"; EmptyString] in
  if negb (bool_decide (custom_skills = [])) || negb (bool_decide (custom_agents = []))
  then
    let lines :=
      if negb (bool_decide (custom_skills = [])) then
        lines
        ++ [counted "### Custom Skills" (length custom_skills);
            EmptyString;
            "| Name | Description |";
            "|------|------------|"]
        ++ (row <$> custom_skills)
        ++ [EmptyString]
      else lines in
    if negb (bool_decide (custom_agents = [])) then
      lines
      ++ [counted "### Custom Agents" (length custom_agents);
          EmptyString;
          "| Name | Description |";
          "|------|------------|"]
      ++ (row <$> custom_agents)
      ++ [EmptyString]
    else lines
  else
    lines
    ++ ["*Your project-specific skills and agents — not tracked by upstream. See [custom/README.md](../custom/README.md) to get started.*";
        EmptyString].

(** [render_catalog]: the text of the catalog, and the warnings the scanners
    have printed to [sys.stderr] on the way. *)
Definition render_catalog (REPO_ROOT : list string) (tree : list file)
    : string * list string :=
  let '(rules, err1) := discover_rules REPO_ROOT tree in
  let '(skills_by_cat, err2) := discover_skills REPO_ROOT tree in
  let agents := discover_agents REPO_ROOT tree in
  let custom_skills := discover_custom_skills tree in
  let custom_agents := discover_custom_agents tree in
  (Str.join newline
     (render_lines rules skills_by_cat agents custom_skills custom_agents),
   err1 ++ err2).

(** ** The entry point *)

(** What a run can see and change: the files, and the two output streams. *)
Record world := World {
  fs : list file;
  stdout : list string;
  stderr : list string
}.

(** The errors of [open] that the model can tell apart. *)
Inductive oserror := FileNotFoundError | NotADirectoryError | IsADirectoryError.

(** [p] lies below [d], and is not [d] itself. *)
Definition strictly_below (d p : list string) : bool :=
  match below d p with
  | Some (_ :: _) => true
  | _ => false
  end.

(** A regular file stands at [p]. *)
Definition is_file (p : list string) (tree : list file) : bool :=
  existsb (λ f, bool_decide (parts f = p)) tree.

(** [p] is a directory: files lie below it, and it is no file itself. *)
Definition is_dir (p : list string) (tree : list file) : bool :=
  existsb (λ f, strictly_below p (parts f)) tree && negb (is_file p tree).

(** A component of [p] before the last one is a regular file. *)
Definition under_file (p : list string) (tree : list file) : bool :=
  existsb (λ f, strictly_below (parts f) p) tree.

(** [p.read_text(encoding="utf-8")] *)
Definition read_text (p : list string) (tree : list file) : oserror + string :=
  match list_find (λ f, parts f = p) tree with
  | Some (_, f) => inr (text f)
  | None =>
      if is_dir p tree then inl IsADirectoryError
      else if under_file p tree then inl NotADirectoryError
      else inl FileNotFoundError
  end.

(** The tree with the content [s] at [p], in place of what a file there
    held before. *)
Definition put_file (p : list string) (s : string) (tree : list file) : list file :=
  match list_find (λ f, parts f = p) tree with
  | Some (i, _) => <[i := File p s]> tree
  | None => tree ++ [File p s]
  end.

(** [p.write_text(s, encoding="utf-8")]: the file is overwritten, or created
    in its directory, which has to be there. *)
Definition write_text (p : list string) (s : string) (tree : list file)
    : oserror + list file :=
  if is_file p tree then inr (put_file p s tree)
  else if is_dir p tree then inl IsADirectoryError
  else if is_dir (removelast p) tree then inr (put_file p s tree)
  else if under_file p tree then inl NotADirectoryError
  else inl FileNotFoundError.

Definition output_path : list string := ["docs"; "CATALOG.md"].

(** How a run ends: with [sys.exit(status)] or at the end of [main], which
    is status 0, or with an exception that nothing catches.  The traceback
    that the interpreter prints for such an exception is left out of
    [stderr]. *)
Inductive outcome := Exit (status : nat) | Uncaught (e : oserror).

(** The exit status of the process. *)
Definition exit_status (o : outcome) : nat :=
  match o with
  | Exit status => status
  | Uncaught _ => 1
  end.

(** [main], with [sys.argv]; the result is the world the run leaves behind
    and the way the run ends. *)
Definition main (REPO_ROOT : list string) (argv : list string) (w : world)
    : world * outcome :=
  let check_mode := bool_decide ("--check" ∈ argv) in
  let '(catalog, warnings) := render_catalog REPO_ROOT (fs w) in
  let err := stderr w ++ warnings in
  if check_mode then
    match read_text output_path (fs w) with
    | inl FileNotFoundError =>
        (World (fs w) (stdout w) (err ++ ["ERROR: docs/CATALOG.md does not exist."]),
         Exit 1)
    | inl e => (World (fs w) (stdout w) err, Uncaught e)
    | inr existing =>
        if String.eqb existing catalog
        then (World (fs w) (stdout w ++ ["CATALOG.md is up to date."]) err, Exit 0)
        else
          (World (fs w) (stdout w)
             (err ++ ["ERROR: CATALOG.md is out of date. Run 'python3 scripts/generate-catalog.py' and commit."]),
           Exit 1)
    end
  else
    match write_text output_path catalog (fs w) with
    | inr tree =>
        (World tree (stdout w ++ ["Generated " +:+ abs_str REPO_ROOT output_path]) err,
         Exit 0)
    | inl e => (World (fs w) (stdout w) err, Uncaught e)
    end.

(** ** Predicates on strings used in the statements *)

Fixpoint lower_str (s : string) : string :=
  match s with
  | EmptyString => EmptyString
  | String c s' => String (lower c) (lower_str s')
  end.

(** The character [d] occurs in [s]. *)
Fixpoint has_char (d : ascii) (s : string) : bool :=
  match s with
  | EmptyString => false
  | String c s' => Ascii.eqb c d || has_char d s'
  end.

(** White space only; white space that stays on the line; no white space. *)
Fixpoint all_space (s : string) : bool :=
  match s with
  | EmptyString => true
  | String c s' => isspace c && all_space s'
  end.

Fixpoint all_blank (s : string) : bool :=
  match s with
  | EmptyString => true
  | String c s' => isspace c && negb (Ascii.eqb c NL) && all_blank s'
  end.

Fixpoint no_space (s : string) : bool :=
  match s with
  | EmptyString => true
  | String c s' => negb (isspace c) && no_space s'
  end.

(** A word of [Str.split_ws]: not empty, and free of white space. *)
Definition is_word (w : string) : Prop := w ≠ EmptyString ∧ no_space w.

(** The first character of a text, when there is one. *)
Definition first_char (s : string) : option ascii :=
  match s with
  | EmptyString => None
  | String c _ => Some c
  end.

(** [t] is [s] without the white space at its two ends: what is cut off on
    either side is white space, and [t] neither begins nor ends with any. *)
Definition stripped_of (s t : string) : Prop :=
  ∃ ws1 ws2,
    s = ws1 +:+ t +:+ ws2 ∧ all_space ws1 ∧ all_space ws2
    ∧ (∀ c, first_char t = Some c → isspace c = false)
    ∧ (∀ c, Str.last_char t = Some c → isspace c = false).

(** [d] with a full stop behind it, unless [d] is empty or ends in one. *)
Definition with_full_stop (d : string) : string :=
  match Str.last_char d with
  | None => EmptyString
  | Some c => if Ascii.eqb c "." then d else d +:+ "."
  end.

(** The character [d] occurs in no field of the entry. *)
Definition lacks (d : ascii) (e : entry) : bool :=
  negb (has_char d (name e)) && negb (has_char d (description e))
  && negb (has_char d (default EmptyString (category e)))
  && negb (has_char d (path e)).

(** The entry has no newline in any of its fields, so its row is one line
    of the document. *)
Definition one_line (e : entry) : bool := lacks NL e.

(** No component of the path holds a carriage return. *)
Definition no_cr (p : list string) : bool :=
  forallb (λ c, negb (has_char CR c)) p.

(** The lines of a document. *)
Definition lines_of (doc : string) : list string := Str.split NL doc.

(** ** The trigger phrases in the words of the description

    The normalizer is described by the place of a trigger phrase in the
    text, not by a search.  The definitions below say what that place is;
    the search of [Re.STOP_PATTERNS] is compared with them further down. *)

(** The phrases that have to end at a word boundary, and the others. *)
Definition word_phrases : list string :=
  ["Use when"; "Use before"; "Use this"; "Use proactively"].
Definition colon_phrases : list string :=
  ["Recognizes:"; "Recognize:"; "Triggers:"; "Trigger:"; "Usage:";
   "Optional:"; "Cancel:"; "Activate when:"].

(** [s] begins with a trigger phrase, in any letter case. *)
Definition starts_with_trigger (s : string) : Prop :=
  ∃ p w rest,
    s = w +:+ rest ∧ lower_str w = lower_str p
    ∧ ((p ∈ word_phrases ∧ Re.word_end rest) ∨ p ∈ colon_phrases).

(** [before] ends where a line starts. *)
Definition line_start (before : string) : Prop :=
  before = EmptyString ∨ Str.last_char before = Some NL.

(** At position [i] of [raw] a line starts that holds, behind optional
    leading white space, a trigger phrase. *)
Definition trigger_at (raw : string) (i : nat) : Prop :=
  ∃ before ws rest,
    raw = before +:+ ws +:+ rest ∧ String.length before = i
    ∧ line_start before ∧ all_blank ws ∧ starts_with_trigger rest.

(** [STOP_PATTERNS] matches at position [i] of [raw]: the white space its
    [\s*] passes over may hold newlines, so the phrase can stand some
    lines further down. *)
Definition stop_match_at (raw : string) (i : nat) : Prop :=
  ∃ before ws rest,
    raw = before +:+ ws +:+ rest ∧ String.length before = i
    ∧ line_start before ∧ all_space ws ∧ starts_with_trigger rest.

(** ** Further predicates

    They serve the statements about the parts of the script that lie
    around the ones above. *)

(** All characters of [s] satisfy [p]. *)
Fixpoint str_forall (p : ascii → bool) (s : string) : bool :=
  match s with
  | EmptyString => true
  | String c s' => p c && str_forall p s'
  end.

(** A key of a frontmatter block as [YAML_KEY_RE] reads it: a word
    character, then word characters and hyphens. *)
Definition is_key (k : string) : bool :=
  match k with
  | EmptyString => false
  | String c k' => isword c && str_forall Re.iskeychar k'
  end.

(** The lines of [l], each closed by a newline. *)
Fixpoint unlines (l : list string) : string :=
  match l with
  | [] => EmptyString
  | x :: l' => x +:+ String NL (unlines l')
  end.

(** ** Tactics *)

(** Picks the alternative of a disjunction that the context proves. *)
Ltac pick_alternative :=
  solve [ eexists _, _; split_and!; done ]
  || (left; pick_alternative) || (right; pick_alternative).

(** Takes apart a hypothesis that places a line in a rendered list. *)
Ltac split_mem H :=
  repeat match type of H with
         | _ ∈ _ ++ _ => apply elem_of_app in H as [H|H]
         | _ ∈ _ :: _ => apply elem_of_cons in H as [H|H]
         | _ ∈ [] => by apply elem_of_nil in H
         | _ ∈ _ <$> _ => apply list_elem_of_fmap in H as (? & -> & _)
         end.

(** Finds a line that stands in a rendered list. *)
Ltac find_mem :=
  first [ by apply list_elem_of_here
        | apply list_elem_of_further; find_mem
        | apply elem_of_app; first [ left; find_mem | right; find_mem ] ].

(** Finds the part of a rendered list that the hypothesis [H] speaks of. *)
Ltac find_in H :=
  first [ exact H
        | apply elem_of_app; first [ right; exact H | left; find_in H ] ].

(** Searches a rendered list for the part that the hypothesis [H] speaks of. *)
Ltac search_mem H :=
  first [ exact H
        | apply elem_of_app; first [ left; search_mem H | right; search_mem H ]
        | apply list_elem_of_further; search_mem H ].


(** * Properties *)

(** ** The model on small inputs *)

Example split_lines :
  Str.split NL ("a" +:+ newline +:+ "b" +:+ newline) = ["a"; "b"; EmptyString].
Proof. reflexivity. Qed.

Example split_words : Str.split_ws "  a  b c " = ["a"; "b"; "c"].
Proof. reflexivity. Qed.

Example replace_leftmost : Str.replace "aa" "X" "aaaaa" = "XXa".
Proof. reflexivity. Qed.

Example title_hyphen : Str.title "code-review" = "Code-Review".
Proof. reflexivity. Qed.

Example frontmatter_body :
  Re.FRONTMATTER_RE (Str.join newline ["---"; "name: x"; "---"; "Body"])
  = Some ("name: x" +:+ newline).
Proof. reflexivity. Qed.

Example frontmatter_unclosed :
  Re.FRONTMATTER_RE (Str.join newline ["---"; "name: x"; "Body"]) = None.
Proof. reflexivity. Qed.

Example key_line : Re.YAML_KEY_RE "allowed-tools : Read, Grep" = Some ("allowed-tools", "Read, Grep").
Proof. reflexivity. Qed.

Example indented_line : Re.YAML_KEY_RE "  note: x" = None.
Proof. reflexivity. Qed.

Example stop_word_boundary :
  Re.STOP_PATTERNS "Use whenever needed" = None
  ∧ Re.STOP_PATTERNS ("Summary." +:+ newline +:+ "TRIGGERS: a, b") = Some 9.
Proof. split; reflexivity. Qed.

Example description_period : extract_catalog_description "  a   b  " = "a b.".
Proof. reflexivity. Qed.

Example skill_category :
  _skill_category (File ["skills"; "build"; "backend"; "api"; "SKILL.md"] EmptyString)
  = "build/backend".
Proof. reflexivity. Qed.

(** Two rules, one of them without a block, and one skill of the category
    [workflow]: one row of rules, one subsection, one warning. *)
Example end_to_end :
  render_catalog ["srv"; "repo"]
    [File ["skills"; "workflow"; "plan"; "SKILL.md"]
       (Str.join newline ["---"; "name: plan"; "description: Plans work"; "---"; "Body"]);
     File ["rules"; "b.md"] "No block.";
     File ["rules"; "a.md"]
       (Str.join newline ["---"; "name: style"; "description: Keeps style."; "---"; "Body"])]
  = (Str.join newline
       ["<!-- AUTO-GENERATED by scripts/generate-catalog.py — do not edit manually -->";
        EmptyString;
        "# Skill Library — Catalog";
        EmptyString;
        "> [README](../README.md) | **CATALOG** | [SKILLS-EXPLAINED](SKILLS-EXPLAINED.md) | [ARTICLE](ARTICLE.md)";
        EmptyString;
        "> [!TIP]";
        "> To install any skill or agent below, see [Quickstart](../README.md#quickstart) in the README.";
        EmptyString;
        "## Rules (1)";
        EmptyString;
        "*Always loaded — shape every interaction.*";
        EmptyString;
        "| Name | Description |";
        "|------|------------|";
        "| [style](../rules/a.md) | Keeps style. |";
        EmptyString;
        "---";
        EmptyString;
        "## Skills (1)";
        EmptyString;
        "*Load on demand — teach Claude specialized workflows.*";
        EmptyString;
        "### Workflow (1)";
        EmptyString;
        "| Name | Description |";
        "|------|------------|";
        "| [plan](../skills/workflow/plan/SKILL.md) | Plans work. |";
        EmptyString;
        "---";
        EmptyString;
        "## Agents (0)";
        EmptyString;
        "*Isolated subprocesses — zero parent context in, result out.*";
        EmptyString;
        "| Name | Category | Description |";
        "|------|----------|------------|";
        EmptyString;
        "---";
        EmptyString;
        "## Custom";
        EmptyString;
        "*Your project-specific skills and agents — not tracked by upstream. See [custom/README.md](../custom/README.md) to get started.*";
        EmptyString],
     ["WARNING: /srv/repo/rules/b.md has no frontmatter, skipping"]).
Proof. by vm_compute. Qed.


(** ** Strings *)

Section strings.
Implicit Types (s t u : string) (c : ascii).

Lemma str_app_cons c s t : String c s +:+ t = String c (s +:+ t).
Proof. reflexivity. Qed.

Lemma str_app_nil_l s : EmptyString +:+ s = s.
Proof. reflexivity. Qed.

Lemma str_app_nil_r s : s +:+ EmptyString = s.
Proof. induction s as [|c s IH]; [done|]. by rewrite str_app_cons, IH. Qed.

Lemma str_app_assoc s t u : (s +:+ t) +:+ u = s +:+ t +:+ u.
Proof. induction s as [|c s IH]; [done|]. by rewrite !str_app_cons, IH. Qed.

Lemma str_length_app s t :
  String.length (s +:+ t) = String.length s + String.length t.
Proof. induction s as [|c s IH]; [done|]. rewrite str_app_cons. simpl. by rewrite IH. Qed.

Lemma str_app_inj_length s1 s2 t1 t2 :
  s1 +:+ t1 = s2 +:+ t2 → String.length s1 = String.length s2 →
  s1 = s2 ∧ t1 = t2.
Proof.
  revert s2. induction s1 as [|c s1 IH]; intros [|c' s2] Heq Hlen;
    try discriminate; [done|].
  rewrite !str_app_cons in Heq. injection Heq as -> Heq. injection Hlen as Hlen.
  destruct (IH s2) as [-> ->]; done.
Qed.

Lemma is_empty_true s : Str.is_empty s = true ↔ s = EmptyString.
Proof. by destruct s. Qed.

Lemma last_char_app_char s c : Str.last_char (s +:+ String c EmptyString) = Some c.
Proof.
  induction s as [|c' s IH]; [done|]. rewrite str_app_cons. simpl.
  destruct s; [done|]. by rewrite str_app_cons in *.
Qed.

Lemma last_char_app s t :
  t ≠ EmptyString → Str.last_char (s +:+ t) = Str.last_char t.
Proof.
  intros Ht. induction s as [|c s IH]; [done|]. rewrite str_app_cons. simpl.
  destruct (s +:+ t) eqn:E; [|done].
  destruct s; [|done]. by rewrite str_app_nil_l in E.
Qed.

Lemma take_app_length s t : Str.take (String.length s) (s +:+ t) = s.
Proof. induction s as [|c s IH]; [by destruct t|]. rewrite str_app_cons. simpl. by rewrite IH. Qed.

Lemma lstrip_nonspace c s : isspace c = false → Str.lstrip (String c s) = String c s.
Proof. intros H. simpl. by rewrite H. Qed.

Lemma rstrip_last s c :
  Str.last_char s = Some c → isspace c = false → Str.rstrip s = s.
Proof.
  intros Hl Hc. induction s as [|c' s IH]; [done|]. simpl in *.
  destruct s as [|c'' s]; simplify_eq/=.
  - by rewrite Hc.
  - rewrite IH by done. done.
Qed.
End strings.

(** ** Stripping *)

Lemma lstrip_spec s :
  ∃ ws, s = ws +:+ Str.lstrip s ∧ all_space ws
        ∧ match Str.lstrip s with
          | EmptyString => True
          | String c _ => isspace c = false
          end.
Proof.
  induction s as [|c s (ws & Hs & Hws & Hc)]; [by exists EmptyString|]. simpl.
  destruct (isspace c) eqn:E.
  - exists (String c ws). rewrite str_app_cons, <-Hs. simpl. by rewrite E.
  - exists EmptyString. by rewrite E.
Qed.

Lemma lstrip_app_space ws s : all_space ws → Str.lstrip (ws +:+ s) = Str.lstrip s.
Proof.
  induction ws as [|c ws IH]; [done|]. intros H. simpl in H.
  apply andb_prop_elim in H as [Hc Hws].
  rewrite str_app_cons. simpl. destruct (isspace c); [auto|done].
Qed.

Lemma lstrip_idemp s : Str.lstrip (Str.lstrip s) = Str.lstrip s.
Proof.
  induction s as [|c s IH]; [done|]. simpl.
  destruct (isspace c) eqn:E; [done|]. simpl. by rewrite E.
Qed.

Lemma rstrip_cons_nonspace c s :
  isspace c = false → Str.rstrip (String c s) = String c (Str.rstrip s).
Proof. intros E. simpl. by rewrite E, andb_false_r. Qed.

Lemma rstrip_idemp s : Str.rstrip (Str.rstrip s) = Str.rstrip s.
Proof.
  induction s as [|c s IH]; [done|]. simpl.
  destruct (Str.is_empty (Str.rstrip s)) eqn:E1, (isspace c) eqn:E2; simpl;
    rewrite ?IH, ?E1, ?E2, ?andb_false_r; done.
Qed.

Lemma strip_idemp s : Str.strip (Str.strip s) = Str.strip s.
Proof.
  unfold Str.strip. destruct (lstrip_spec s) as (_ & _ & _ & Hc).
  destruct (Str.lstrip s) as [|c t]; [done|].
  rewrite rstrip_cons_nonspace by done. simpl Str.lstrip at 1. rewrite Hc.
  rewrite <-rstrip_cons_nonspace by done. apply rstrip_idemp.
Qed.

Lemma lstrip_all_space ws : all_space ws → Str.lstrip ws = EmptyString.
Proof.
  induction ws as [|c ws IH]; [done|]. simpl. intros [Hc Hws]%andb_prop_elim.
  destruct (isspace c); [auto|done].
Qed.

Lemma rstrip_all_space ws : all_space ws → Str.rstrip ws = EmptyString.
Proof.
  induction ws as [|c ws IH]; [done|]. simpl. intros [Hc Hws]%andb_prop_elim.
  rewrite IH by done. simpl. by destruct (isspace c).
Qed.

Lemma rstrip_app_space s ws : all_space ws → Str.rstrip (s +:+ ws) = Str.rstrip s.
Proof.
  intros Hws. induction s as [|c s IH].
  - rewrite str_app_nil_l. by apply rstrip_all_space.
  - rewrite str_app_cons. simpl. by rewrite IH.
Qed.

Lemma rstrip_spec s :
  ∃ ws, s = Str.rstrip s +:+ ws ∧ all_space ws
        ∧ ∀ c, Str.last_char (Str.rstrip s) = Some c → isspace c = false.
Proof.
  induction s as [|c s (ws & Hs & Hws & Hc)]; [by exists EmptyString|]. simpl.
  destruct (Str.rstrip s) as [|c' r] eqn:Er; simpl.
  - rewrite str_app_nil_l in Hs. subst ws. destruct (isspace c) eqn:E.
    + exists (String c s). split_and!; [done| |done]. simpl. by rewrite E.
    + exists s. split_and!; [done..|]. simpl. by intros ? [= <-].
  - exists ws. split_and!; [by rewrite str_app_cons, <-Hs|done|done].
Qed.

Lemma last_char_is_Some s : s ≠ EmptyString → is_Some (Str.last_char s).
Proof.
  induction s as [|c s IH]; [done|]. intros _. simpl.
  destruct s; [by eexists|]. by apply IH.
Qed.

(** [Str.strip] cuts white space off the two ends, and all that is there. *)
Lemma strip_spec s : stripped_of s (Str.strip s).
Proof.
  unfold Str.strip. destruct (lstrip_spec s) as (ws1 & Hs & Hws1 & Hc).
  destruct (rstrip_spec (Str.lstrip s)) as (ws2 & Hl & Hws2 & Hlast).
  exists ws1, ws2. split_and!; [by rewrite <-Hl|done|done| |done].
  destruct (Str.lstrip s) as [|c t]; [done|].
  rewrite rstrip_cons_nonspace by done. by intros ? [= <-].
Qed.

(** No other text is [s] without the white space at its ends. *)
Lemma stripped_of_strip s t : stripped_of s t → t = Str.strip s.
Proof.
  intros (ws1 & ws2 & -> & Hws1 & Hws2 & Hfirst & Hlast).
  unfold Str.strip. rewrite lstrip_app_space by done.
  destruct t as [|c t].
  - rewrite str_app_nil_l, lstrip_all_space by done. done.
  - rewrite str_app_cons, lstrip_nonspace by by apply Hfirst.
    rewrite <-str_app_cons, rstrip_app_space by done.
    destruct (last_char_is_Some (String c t)) as [c' Hc']; [done|].
    symmetry. by eapply rstrip_last, Hlast.
Qed.

Lemma stripped_of_all l cores :
  Forall2 stripped_of l cores → cores = Str.strip <$> l.
Proof.
  induction 1 as [|s t l cores Hst _ IH]; [done|].
  rewrite fmap_cons. f_equal; [by apply stripped_of_strip|done].
Qed.

Lemma strip_all l : Forall2 stripped_of l (Str.strip <$> l).
Proof. induction l; constructor; [apply strip_spec|done]. Qed.

(** [s.endswith(c)] looks at the last character. *)
Lemma endswith_last_char c s :
  Str.endswith (String c EmptyString) s = bool_decide (Str.last_char s = Some c).
Proof.
  induction s as [|a s IH]; [done|]. cbn [Str.endswith Str.last_char]. rewrite IH.
  destruct s as [|b s]; cbn [Str.is_empty String.eqb].
  - rewrite orb_false_r. destruct (Ascii.eqb_spec a c) as [->|Hne].
    + by rewrite bool_decide_eq_true_2.
    + rewrite bool_decide_eq_false_2; [done|congruence].
  - destruct (Ascii.eqb a c); done.
Qed.

(** The last step of [extract_catalog_description]. *)
Lemma full_stop_added d :
  (if negb (Str.is_empty d) && negb (Str.endswith "." d) then d +:+ "." else d)
  = with_full_stop d.
Proof.
  unfold with_full_stop. rewrite endswith_last_char.
  destruct d as [|c d]; [done|].
  destruct (last_char_is_Some (String c d)) as [c' Hc']; [done|]. rewrite Hc'.
  cbn [Str.is_empty negb andb].
  destruct (Ascii.eqb_spec c' ".") as [->|Hne].
  - by rewrite bool_decide_eq_true_2.
  - rewrite bool_decide_eq_false_2; [done|congruence].
Qed.
Lemma has_char_app d s t : has_char d (s +:+ t) = has_char d s || has_char d t.
Proof.
  induction s as [|c s IH]; [done|]. rewrite str_app_cons. simpl.
  by rewrite IH, orb_assoc.
Qed.


(** ** The search for a trigger phrase *)

Lemma lower_str_length s t : lower_str s = lower_str t → String.length s = String.length t.
Proof.
  revert t. induction s as [|c s IH]; intros [|c' t] H; simplify_eq/=; [done|].
  f_equal. auto.
Qed.

Lemma after_ci_spec p s r :
  Re.after_ci p s = Some r ↔ ∃ w, s = w +:+ r ∧ lower_str w = lower_str p.
Proof.
  revert s. induction p as [|a p IH]; intros s; simpl.
  - split.
    + intros [= ->]. by exists EmptyString.
    + intros ([|??] & -> & H); by simplify_eq/=.
  - destruct s as [|c s].
    + split; [done|]. intros ([|??] & H1 & H2); simplify_eq/=.
    + destruct (Ascii.eqb_spec (lower c) (lower a)) as [E|E].
      * rewrite IH. split.
        -- intros (w & -> & Hw). exists (String c w). simpl. by rewrite E, Hw.
        -- intros ([|c' w] & H1 & H2); simplify_eq/=.
           rewrite str_app_cons in H1. simplify_eq. eauto.
      * split; [done|]. intros ([|c' w] & H1 & H2); simplify_eq/=.
        rewrite str_app_cons in H1. by simplify_eq.
Qed.

Lemma phrase_b_spec p s :
  Re.phrase_b p s = true ↔
  ∃ w rest, s = w +:+ rest ∧ lower_str w = lower_str p ∧ Re.word_end rest.
Proof.
  unfold Re.phrase_b. split.
  - destruct (Re.after_ci p s) as [r|] eqn:E; [|done].
    apply after_ci_spec in E as (w & -> & Hw). intros Hr.
    exists w, r. by rewrite Hr.
  - intros (w & rest & -> & Hw & Hr).
    assert (Re.after_ci p (w +:+ rest) = Some rest) as -> by (apply after_ci_spec; eauto).
    by apply Is_true_true.
Qed.

Lemma phrase_spec p s :
  Re.phrase p s = true ↔ ∃ w rest, s = w +:+ rest ∧ lower_str w = lower_str p.
Proof.
  unfold Re.phrase. split.
  - destruct (Re.after_ci p s) as [r|] eqn:E; [|done].
    apply after_ci_spec in E as (w & -> & Hw). eauto.
  - intros (w & rest & -> & Hw).
    assert (Re.after_ci p (w +:+ rest) = Some rest) as -> by (apply after_ci_spec; eauto).
    done.
Qed.

Lemma stop_alternatives_spec s :
  Re.stop_alternatives s = true ↔ starts_with_trigger s.
Proof.
  unfold Re.stop_alternatives, starts_with_trigger, word_phrases, colon_phrases.
  rewrite !orb_true_iff, !phrase_b_spec, !phrase_spec. split.
  - intros H. repeat (destruct H as [H|H]);
      destruct H as (w & rest & -> & H); eexists _, w, rest; (split; [done|]);
      lazymatch type of H with
      | _ ∧ _ => destruct H as [Hw Hr]; split; [exact Hw|left; split; [set_solver|done]]
      | _ => split; [exact H|right; set_solver]
      end.
  - intros (p & w & rest & -> & Hw & [[Hp Hr]|Hp]);
      repeat (apply elem_of_cons in Hp as [->|Hp]);
      try (by apply elem_of_nil in Hp); pick_alternative.
Qed.

Lemma stop_here_spec s :
  Re.stop_here s = true ↔
  ∃ ws rest, s = ws +:+ rest ∧ all_space ws ∧ starts_with_trigger rest.
Proof.
  induction s as [|c s IH]; simpl.
  - rewrite stop_alternatives_spec. split.
    + intros H. by exists EmptyString, EmptyString.
    + intros ([|??] & [|??] & ? & _ & H); by simplify_eq/=.
  - rewrite orb_true_iff, andb_true_iff, IH, stop_alternatives_spec. split.
    + intros [[Hc (ws & rest & -> & Hws & Hr)]|H].
      * exists (String c ws), rest. split_and!; [done| |done].
        simpl. rewrite Hc. done.
      * by exists EmptyString, (String c s).
    + intros ([|c' ws] & rest & Heq & Hws & Hr).
      * rewrite str_app_nil_l in Heq. subst. by right.
      * rewrite str_app_cons in Heq. simplify_eq. simpl in Hws.
        apply andb_prop_elim in Hws as [Hc Hws]. left. split.
        -- by apply Is_true_true.
        -- eauto.
Qed.

(** The expression matches at position [j]: a line starts there, and what
    follows is white space and one of the alternatives. *)
Lemma stop_match_at_spec raw j :
  stop_match_at raw j ↔
  ∃ before s, raw = before +:+ s ∧ String.length before = j
              ∧ line_start before ∧ Re.stop_here s = true.
Proof.
  unfold stop_match_at. split.
  - intros (before & ws & rest & -> & ? & ? & ? & ?).
    exists before, (ws +:+ rest). split_and!; [done..|].
    apply stop_here_spec. eauto.
  - intros (before & s & -> & ? & ? & (ws & rest & -> & ? & ?)%stop_here_spec).
    exists before, ws, rest. done.
Qed.

Lemma line_start_snoc before c :
  line_start (before +:+ String c EmptyString) ↔ c = NL.
Proof.
  unfold line_start. rewrite last_char_app_char. split.
  - intros [H|H]; [|by simplify_eq]. by destruct before.
  - intros ->. by right.
Qed.

Lemma stop_search_from_spec s before bol :
  (bol = true ↔ line_start before) →
  match Re.stop_search_from bol (String.length before) s with
  | Some k =>
      stop_match_at (before +:+ s) k ∧ String.length before ≤ k
      ∧ ∀ j, String.length before ≤ j < k → ¬ stop_match_at (before +:+ s) j
  | None => ∀ j, String.length before ≤ j → ¬ stop_match_at (before +:+ s) j
  end.
Proof.
  revert before bol. induction s as [|c s IH]; intros before bol Hbol.
  - simpl. replace (Re.stop_alternatives EmptyString) with false by done.
    rewrite andb_false_r. intros j Hj (b2 & s2 & Heq & Hlen & _ & Hs)%stop_match_at_spec.
    rewrite str_app_nil_r in Heq.
    assert (String.length s2 = 0) as Hs2.
    { apply (f_equal String.length) in Heq. rewrite str_length_app in Heq. lia. }
    destruct s2; [|done]. done.
  - cbn [Re.stop_search_from].
    destruct (bol && Re.stop_here (String c s)) eqn:E.
    + apply andb_true_iff in E as [Hb Hs]. split_and!; [|done|lia].
      apply stop_match_at_spec. exists before, (String c s).
      split_and!; [done..| |done]. by apply Hbol.
    + specialize (IH (before +:+ String c EmptyString) (Ascii.eqb c NL)).
      rewrite str_length_app in IH. simpl in IH.
      replace (String.length before + 1) with (S (String.length before)) in IH by lia.
      rewrite str_app_assoc in IH. rewrite str_app_cons, str_app_nil_l in IH.
      assert (¬ stop_match_at (before +:+ String c s) (String.length before)) as Hhere.
      { intros (b2 & s2 & Heq & Hlen & Hl & Hs)%stop_match_at_spec.
        symmetry in Hlen. destruct (str_app_inj_length _ _ _ _ Heq Hlen) as [<- <-].
        apply Hbol in Hl. by rewrite Hl, Hs in E. }
      lapply IH.
      2:{ rewrite line_start_snoc. split; [by intros ?%Ascii.eqb_eq|].
          intros ->. done. }
      clear IH. destruct (Re.stop_search_from _ _ s) as [k|].
      * intros (Hk & Hle & Hno). split_and!; [done|lia|].
        intros j Hj. destruct (decide (j = String.length before)) as [->|]; [done|].
        apply Hno. lia.
      * intros Hno j Hj.
        destruct (decide (j = String.length before)) as [->|]; [done|].
        apply Hno. lia.
Qed.

(** [STOP_PATTERNS.search] finds the first position at which the expression
    matches, and finds nothing only when there is none. *)
Lemma STOP_PATTERNS_spec raw :
  match Re.STOP_PATTERNS raw with
  | Some k => stop_match_at raw k ∧ ∀ j, j < k → ¬ stop_match_at raw j
  | None => ∀ j, ¬ stop_match_at raw j
  end.
Proof.
  unfold Re.STOP_PATTERNS.
  pose proof (stop_search_from_spec raw EmptyString true) as H.
  rewrite str_app_nil_l in H. simpl in H. lapply H.
  2:{ split; [|done]. intros _. by left. }
  destruct (Re.stop_search_from true 0 raw) as [k|].
  - intros (? & _ & Hno). split; [done|]. intros j ?. apply Hno. lia.
  - intros Hno j. apply Hno. lia.
Qed.

(** ** The words of a text *)

Lemma words_pieces_words s :
  no_space (Str.words_pieces s).1 ∧ Forall is_word (Str.words_pieces s).2.
Proof.
  induction s as [|c s [IH1 IH2]]; simpl; [done|].
  destruct (Str.words_pieces s) as [h t]. simpl in *.
  destruct (isspace c) eqn:Hc; simpl.
  - split; [done|]. unfold Str.cons_word.
    destruct h; simpl; [done|]. constructor; [|done]. done.
  - rewrite Hc. done.
Qed.

Lemma split_ws_words s : Forall is_word (Str.split_ws s).
Proof.
  unfold Str.split_ws. pose proof (words_pieces_words s) as [H1 H2].
  destruct (Str.words_pieces s) as [h t]. simpl in *. unfold Str.cons_word.
  destruct h; simpl; [done|]. by constructor.
Qed.

Lemma is_word_last w : is_word w → ∃ c, Str.last_char w = Some c ∧ isspace c = false.
Proof.
  intros [Hne Hw]. induction w as [|c w IH]; [done|]. simpl in *.
  apply andb_prop_elim in Hw as [Hc Hw]. destruct w as [|c' w].
  - exists c. split; [done|]. by destruct (isspace c).
  - apply IH; done.
Qed.

Lemma join_words_last ws w :
  Forall is_word (ws ++ [w]) →
  Str.last_char (Str.join " " (ws ++ [w])) = Str.last_char w.
Proof.
  induction ws as [|x ws IH]; intros H; simpl; [done|].
  destruct (decide (ws ++ [w] = [])) as [E|_]; [by destruct ws|].
  inv H. specialize (IH ltac:(done)).
  rewrite last_char_app by done. rewrite str_app_cons, str_app_nil_l. simpl.
  destruct (Str.join " " (ws ++ [w])); [|done].
  assert (is_word w) as (c & Hc & _)%is_word_last.
  { match goal with H : Forall _ (_ ++ _) |- _ => apply Forall_app in H as [_ H]; by inv H end. }
  simpl in IH. congruence.
Qed.

(** Joining words with single spaces leaves nothing for [strip] to remove. *)
Lemma strip_join_words ws :
  Forall is_word ws → Str.strip (Str.join " " ws) = Str.join " " ws.
Proof.
  intros Hws. destruct ws as [|w ws]; [done|]. unfold Str.strip.
  assert (Str.lstrip (Str.join " " (w :: ws)) = Str.join " " (w :: ws)) as ->.
  { inv Hws. destruct w as [|c w]; [by destruct H1|]. destruct H1 as [_ Hc].
    simpl in Hc. apply andb_prop_elim in Hc as [Hc _].
    simpl. destruct (decide (ws = [])); rewrite ?str_app_cons; simpl;
      by destruct (isspace c). }
  destruct (exists_last (l := w :: ws)) as (ws' & w' & E); [done|]. rewrite E in *.
  assert (is_word w') as Hw'.
  { apply Forall_app in Hws as [_ Hws]. by inv Hws. }
  destruct (is_word_last _ Hw') as (c & Hc & Hsp).
  apply (rstrip_last _ c); [|done]. by rewrite join_words_last.
Qed.

(** ** The description normalizer *)

(** C1, as the description states it, fails: on the single line the phrase
    is not at the start of a line, and nothing is removed. *)
Lemma extract_single_line_keeps_trigger :
  extract_catalog_description "Does X and Y. Use when Z happens." ≠ "Does X and Y.".
Proof. vm_compute. discriminate. Qed.

(** C1, amended: the single-line input comes back unchanged; the trigger
    clause is removed once it stands on a line of its own. *)
Theorem extract_trigger_needs_line_start :
  extract_catalog_description "Does X and Y. Use when Z happens."
    = "Does X and Y. Use when Z happens."
  ∧ extract_catalog_description ("Does X and Y." +:+ newline +:+ "Use when Z happens.")
    = "Does X and Y.".
Proof. split; reflexivity. Qed.

(** *** A phrase at the start of its line *)

Lemma all_blank_space ws : all_blank ws → all_space ws.
Proof.
  induction ws as [|c ws IH]; [done|]. simpl.
  intros [[Hc _]%andb_prop_elim Hws]%andb_prop_elim.
  apply andb_prop_intro. auto.
Qed.

Lemma trigger_at_stop_match raw i : trigger_at raw i → stop_match_at raw i.
Proof.
  intros (before & ws & rest & ? & ? & ? & ?%all_blank_space & ?).
  by exists before, ws, rest.
Qed.

(** White space splits behind its last newline. *)
Lemma split_last_line ws :
  all_space ws →
  ∃ ws1 ws2, ws = ws1 +:+ ws2 ∧ all_space ws1 ∧ all_blank ws2
             ∧ (ws1 = EmptyString ∨ Str.last_char ws1 = Some NL).
Proof.
  induction ws as [|c ws IH]; [by exists EmptyString, EmptyString; auto|].
  simpl. intros [Hc Hws]%andb_prop_elim.
  destruct (IH Hws) as (ws1 & ws2 & -> & H1 & H2 & Hl).
  destruct ws1 as [|c1 ws1].
  - destruct (Ascii.eqb_spec c NL) as [->|Hne].
    + exists (String NL EmptyString), ws2. split_and!; [done..|by right].
    + exists EmptyString, (String c ws2). split_and!; [done..| |by left].
      simpl. apply Ascii.eqb_neq in Hne. rewrite Hne.
      apply andb_prop_intro. split; [|done]. apply andb_prop_intro. by split.
  - exists (String c (String c1 ws1)), ws2. split_and!; [done| |done|].
    + simpl. apply andb_prop_intro. by split.
    + right. destruct Hl as [?|Hl]; [done|]. exact Hl.
Qed.

(** Where the expression matches, the phrase found starts a line of its
    own, and only white space lies between the two places. *)
Lemma stop_match_trigger raw k :
  stop_match_at raw k →
  ∃ before mid rest,
    raw = before +:+ mid +:+ rest ∧ String.length before = k
    ∧ all_space mid ∧ trigger_at raw (k + String.length mid).
Proof.
  intros (before & ws & rest & -> & Hk & Hl & Hws & Hr).
  destruct (split_last_line ws Hws) as (ws1 & ws2 & -> & H1 & H2 & Hl1).
  exists before, ws1, (ws2 +:+ rest). rewrite str_app_assoc.
  split_and!; [done..|].
  exists (before +:+ ws1), ws2, rest. rewrite str_app_assoc, str_length_app.
  split_and!; [done|lia| |done..].
  destruct Hl1 as [->|Hl1]; [by rewrite str_app_nil_r|].
  right. rewrite last_char_app; [done|]. intros ->. done.
Qed.

Lemma take_app_ge a b n :
  Str.take (String.length a + n) (a +:+ b) = a +:+ Str.take n b.
Proof. induction a as [|c a IH]; [done|]. rewrite !str_app_cons. simpl. by rewrite IH. Qed.

Lemma take_app_le a b n :
  n ≤ String.length a → Str.take n (a +:+ b) = Str.take n a.
Proof.
  revert n. induction a as [|c a IH]; intros [|n] Hn; simpl in Hn; try lia.
  - by destruct b.
  - by destruct (String c a +:+ b).
  - rewrite str_app_cons. simpl. rewrite IH by lia. done.
Qed.

Lemma all_space_take n ws : all_space ws → all_space (Str.take n ws).
Proof.
  revert n. induction ws as [|c ws IH]; intros [|n]; simpl; try done.
  intros [Hc Hws]%andb_prop_elim. apply andb_prop_intro. auto.
Qed.

Lemma words_pieces_app_space s ws :
  all_space ws → Str.words_pieces (s +:+ ws) = Str.words_pieces s.
Proof.
  intros Hws. induction s as [|c s IH].
  - rewrite str_app_nil_l. induction ws as [|c ws IH]; [done|]. simpl in *.
    apply andb_prop_elim in Hws as [Hc Hws]. rewrite IH by done.
    by destruct (isspace c).
  - rewrite str_app_cons. simpl. by rewrite IH.
Qed.

Lemma split_ws_app_space s ws :
  all_space ws → Str.split_ws (s +:+ ws) = Str.split_ws s.
Proof. intros. unfold Str.split_ws. by rewrite words_pieces_app_space. Qed.




(** ** [str.replace] *)

Lemma replace_go_skip old new x rest :
  Str.replace_go (String.length x) old new (x +:+ rest) = Str.replace old new rest.
Proof. induction x as [|c x IH]; [by destruct rest|]. by rewrite str_app_cons. Qed.

Section replace.
Context (old new : string) (Hold : old ≠ EmptyString).
Implicit Types (s t a : string).

Lemma prefix_spec p s : String.prefix p s = true ↔ ∃ r, s = p +:+ r.
Proof.
  revert s. induction p as [|c p IH]; intros s.
  - destruct s; simpl; split; eauto.
  - destruct s as [|c' s]; simpl.
    + split; [done|]. by intros [r ?].
    + destruct (ascii_dec c c') as [->|Hne].
      * rewrite IH. split; intros [r Hr]; exists r.
        -- by rewrite str_app_cons, Hr.
        -- rewrite str_app_cons in Hr. by simplify_eq.
      * split; [done|]. intros [r Hr]. rewrite str_app_cons in Hr. by simplify_eq.
Qed.

Lemma prefix_app_r p s t : String.prefix p s = true → String.prefix p (s +:+ t) = true.
Proof.
  rewrite !prefix_spec. intros [r ->]. exists (r +:+ t). by rewrite str_app_assoc.
Qed.

Lemma replace_prefix rest :
  Str.replace old new (old +:+ rest) = new +:+ Str.replace old new rest.
Proof.
  unfold Str.replace at 1. destruct old as [|c o]; [done|].
  rewrite str_app_cons. cbn [Str.replace_go].
  rewrite <-str_app_cons, prefix_app_r by (apply prefix_spec; exists EmptyString; by rewrite str_app_nil_r).
  replace (String.length (String c o) - 1) with (String.length o) by (simpl; lia).
  by rewrite replace_go_skip.
Qed.

Lemma replace_cons c s :
  String.prefix old (String c s) = false →
  Str.replace old new (String c s) = String c (Str.replace old new s).
Proof. intros H. unfold Str.replace. cbn [Str.replace_go]. by rewrite H. Qed.

(** [replace] goes through a concatenation when no occurrence of [old]
    that starts in the first part reaches into the second. *)
Lemma replace_app a t :
  (∀ a1 a2, a = a1 +:+ a2 → a2 ≠ EmptyString →
            String.prefix old (a2 +:+ t) = true → String.prefix old a2 = true) →
  Str.replace old new (a +:+ t) = Str.replace old new a +:+ Str.replace old new t.
Proof.
  remember (String.length a) as n eqn:Hn. revert a Hn.
  induction (lt_wf n) as [n _ IH]. intros a -> Hb.
  destruct a as [|c a]; [done|].
  destruct (String.prefix old (String c a +:+ t)) eqn:Hp.
  - apply (Hb EmptyString) in Hp; [|done..].
    apply prefix_spec in Hp as [a' Ha]. rewrite Ha, str_app_assoc, !replace_prefix.
    rewrite str_app_assoc. f_equal. eapply IH; [|done|].
    + rewrite Ha, str_length_app. destruct old; [done|simpl; lia].
    + intros a1 a2 -> ?. apply (Hb (old +:+ a1)); [|done]. by rewrite Ha, str_app_assoc.
  - rewrite str_app_cons in *. rewrite !replace_cons, str_app_cons; [|
      by destruct (String.prefix old (String c a)) eqn:E;
        [apply (prefix_app_r _ _ t) in E; rewrite str_app_cons in E; congruence|]|done].
    f_equal. eapply IH; [|done|]; [simpl; lia|].
    intros a1 a2 -> ?. by apply (Hb (String c a1)).
Qed.

Lemma prefix_before_sep p d a t :
  has_char d p = false →
  String.prefix p (a +:+ String d t) = true → String.prefix p a = true.
Proof.
  revert a. induction p as [|c p IH]; intros a Hd; [by destruct a|].
  simpl in Hd. apply orb_false_iff in Hd as [Hc Hd].
  destruct a as [|c' a]; simpl.
  - destruct (ascii_dec c d) as [->|]; [|done]. by rewrite Ascii.eqb_refl in Hc.
  - destruct (ascii_dec c c'); [|done]. by apply IH.
Qed.

(** A character that does not occur in [old] separates what [replace]
    does on its two sides. *)
Lemma replace_app_sep a d t :
  has_char d old = false →
  Str.replace old new (a +:+ String d t)
  = Str.replace old new a +:+ String d (Str.replace old new t).
Proof.
  intros Hd. rewrite replace_app.
  - f_equal. apply replace_cons. destruct old as [|c o]; [done|].
    simpl in *. apply orb_false_iff in Hd as [Hc _].
    destruct (ascii_dec c d) as [->|]; [|done]. by rewrite Ascii.eqb_refl in Hc.
  - intros a1 a2 _ _. by apply prefix_before_sep.
Qed.
End replace.

Lemma esc_esc_n_boundary a2 b :
  a2 ≠ EmptyString →
  String.prefix esc_esc_n (a2 +:+ esc_esc_n +:+ b) = true →
  String.prefix esc_esc_n a2 = true.
Proof.
  intros Ha2. unfold esc_esc_n, BS.
  destruct a2 as [|x [|y [|z a2]]]; [done|..]; rewrite ?str_app_cons, ?str_app_nil_l;
    cbn [String.prefix];
    repeat (destruct (ascii_dec _ _) as [?|?]; try discriminate; try done).
  intros _. by destruct a2.
Qed.

Lemma newline_app s : newline +:+ s = String NL s.
Proof. reflexivity. Qed.

(** A doubled backslash and [n] become one newline, whatever surrounds
    them, and no backslash of the escape is left. *)
Lemma unescape_esc_esc_n a b :
  unescape (a +:+ esc_esc_n +:+ b) = unescape a +:+ newline +:+ unescape b.
Proof.
  unfold unescape.
  rewrite (replace_app esc_esc_n newline); [|done|].
  2:{ intros a1 a2 _. apply esc_esc_n_boundary. }
  rewrite (replace_prefix esc_esc_n newline) by done.
  rewrite !newline_app.
  rewrite (replace_app_sep esc_n newline ltac:(done) _ NL) by reflexivity.
  rewrite (replace_app_sep esc_esc_q quote ltac:(done) _ NL) by reflexivity.
  rewrite (replace_app_sep esc_q quote ltac:(done) _ NL) by reflexivity.
  reflexivity.
Qed.


(** ** The frontmatter parser *)

Lemma drop_last_app_char s c : Str.drop_last (s +:+ String c EmptyString) = s.
Proof.
  induction s as [|c' s IH]; [done|]. rewrite str_app_cons. simpl.
  assert (Str.is_empty (s +:+ String c EmptyString) = false) as -> by (by destruct s).
  by rewrite IH.
Qed.

(** A line the key expression matches starts with a word character, so it
    is never taken for an indented line of a multi-line value. *)
Lemma key_line_not_indented line kv :
  Re.YAML_KEY_RE line = Some kv → Str.startswith " " line = false.
Proof.
  destruct line as [|c line]; [done|]. unfold Re.YAML_KEY_RE, Str.startswith.
  destruct (isword c) eqn:Hc; [|discriminate]. intros _. cbn [String.prefix].
  destruct (ascii_dec " " c) as [<-|]; [discriminate|reflexivity].
Qed.

Lemma parse_line_key st line k v :
  Re.YAML_KEY_RE line = Some (k, v) →
  parse_line st line =
    if String.eqb (Str.strip v) "|" then PState (flush_key st) (Some k) [] true
    else PState (flush_key st) (Some k)
           [if is_quoted (Str.strip v) then unescape (Str.strip_ends (Str.strip v))
            else Str.strip v] false.
Proof.
  intros H. unfold parse_line. rewrite H, (key_line_not_indented _ _ H).
  by rewrite andb_false_r.
Qed.

Lemma parse_line_other st line :
  Re.YAML_KEY_RE line = None → parse_line st line = continuation st line.
Proof. intros H. unfold parse_line. by rewrite H. Qed.

Lemma is_quoted_wrapped q inner :
  q = DQ ∨ q = SQ → is_quoted (String q (inner +:+ String q EmptyString)) = true.
Proof.
  intros Hq. unfold is_quoted.
  assert (Str.last_char (inner +:+ String q EmptyString) = Some q) as Hl
    by apply last_char_app_char.
  destruct (inner +:+ String q EmptyString) eqn:E; [by destruct inner|].
  rewrite Hl, bool_decide_eq_true_2 by done. by destruct Hq as [-> | ->].
Qed.

(** C6: the value of a key line that is wrapped in quotes is unescaped by
    the four replacements in this order: backslash backslash n, backslash
    n, backslash backslash quote, backslash quote.  A quoted
    [line1\nline2] comes out as two lines, and a doubled backslash before
    the [n] gives the newline alone. *)
Theorem quoted_value_unescaped_in_order :
  (∀ st line k v q inner,
     Re.YAML_KEY_RE line = Some (k, v) → q = DQ ∨ q = SQ →
     Str.strip v = String q (inner +:+ String q EmptyString) →
     parse_line st line =
       PState (flush_key st) (Some k)
         [Str.replace esc_q quote
            (Str.replace esc_esc_q quote
               (Str.replace esc_n newline
                  (Str.replace esc_esc_n newline inner)))] false)
  ∧ _parse_yaml_flat ("description: " +:+ quote +:+ "line1" +:+ esc_n +:+ "line2" +:+ quote)
      !! "description" = Some ("line1" +:+ newline +:+ "line2")
  ∧ _parse_yaml_flat ("description: " +:+ quote +:+ "line1" +:+ esc_esc_n +:+ "line2" +:+ quote)
      !! "description" = Some ("line1" +:+ newline +:+ "line2")
  ∧ (∀ a b, unescape (a +:+ esc_esc_n +:+ b) = unescape a +:+ newline +:+ unescape b).
Proof.
  split_and!.
  - intros st line k v q inner Hkey Hq Hv.
    rewrite (parse_line_key _ _ _ _ Hkey), Hv, is_quoted_wrapped by done.
    simpl Str.strip_ends. rewrite drop_last_app_char.
    by destruct Hq as [-> | ->].
  - by vm_compute.
  - by vm_compute.
  - apply unescape_esc_esc_n.
Qed.

Lemma quoted_value_unescaped_witness :
  parse_line (PState ∅ None [] false) ("name: 'a" +:+ esc_esc_n +:+ "b'")
  = PState ∅ (Some "name") ["a" +:+ newline +:+ "b"] false.
Proof.
  exact (proj1 quoted_value_unescaped_in_order (PState ∅ None [] false)
           ("name: 'a" +:+ esc_esc_n +:+ "b'") "name"
           ("'a" +:+ esc_esc_n +:+ "b'") SQ ("a" +:+ esc_esc_n +:+ "b")
           eq_refl (or_intror eq_refl) eq_refl).
Defined.

(** *** Lines *)

Lemma split_pieces_line l :
  has_char NL l = false → Str.split_pieces NL l = (l, []).
Proof.
  induction l as [|c l IH]; [done|]. simpl. intros [Hc Hl]%orb_false_iff.
  by rewrite IH, Hc.
Qed.

Lemma split_line_app l rest :
  has_char NL l = false →
  Str.split NL (l +:+ String NL rest) = l :: Str.split NL rest.
Proof.
  unfold Str.split. induction l as [|c l IH]; intros H.
  - rewrite str_app_nil_l. simpl. by destruct (Str.split_pieces NL rest).
  - simpl in H. apply orb_false_iff in H as [Hc Hl]. specialize (IH Hl).
    rewrite str_app_cons. simpl. destruct (Str.split_pieces NL (l +:+ String NL rest)).
    rewrite Hc. destruct (Str.split_pieces NL rest). by simplify_eq.
Qed.

Lemma split_join lines :
  lines ≠ [] → Forall (λ l, has_char NL l = false) lines →
  Str.split NL (Str.join newline lines) = lines.
Proof.
  induction lines as [|l lines IH]; [done|]. intros _ H. inv H. cbn [Str.join].
  destruct (decide (lines = [])) as [->|Hne].
  - unfold Str.split. by rewrite split_pieces_line.
  - rewrite newline_app, split_line_app by done.
    by rewrite IH.
Qed.

(** *** Multi-line values *)

Lemma parse_body_lines body r k cur :
  Forall (λ l, Re.YAML_KEY_RE l = None) body →
  fold_left parse_line body (PState r (Some k) cur true)
  = PState r (Some k) (cur ++ (Str.strip <$> body)) true.
Proof.
  revert cur. induction body as [|l body IH]; intros cur H; simpl.
  - by rewrite (right_id_L [] (++)).
  - inv H. rewrite parse_line_other by done. unfold continuation. simpl.
    rewrite IH by done.
    by rewrite <-(assoc_L (++)).
Qed.

Lemma parse_keeps_other_key k x lines st :
  Forall (λ l, ∀ v, Re.YAML_KEY_RE l ≠ Some (k, v)) lines →
  result st !! k = Some x → current_key st ≠ Some k →
  result (fold_left parse_line lines st) !! k = Some x
  ∧ current_key (fold_left parse_line lines st) ≠ Some k.
Proof.
  revert st. induction lines as [|l lines IH]; intros st H Hx Hk; simpl; [done|].
  inv H. apply IH; [done|..].
  - destruct (Re.YAML_KEY_RE l) as [[k' v']|] eqn:E.
    + rewrite (parse_line_key _ _ _ _ E).
      assert (flush_key st !! k = Some x) as Hf.
      { unfold flush_key. destruct (current_key st) as [ck|]; [|done].
        rewrite lookup_insert_ne; [done|congruence]. }
      by destruct (String.eqb _ _).
    + rewrite parse_line_other by done. unfold continuation.
      by destruct (_ && _).
  - destruct (Re.YAML_KEY_RE l) as [[k' v']|] eqn:E.
    + rewrite (parse_line_key _ _ _ _ E).
      assert (k' ≠ k) by (intros ->; by eapply H2).
      destruct (String.eqb _ _); simpl; congruence.
    + rewrite parse_line_other by done. unfold continuation.
      by destruct (_ && _).
Qed.




(** ** The scanners *)

(** The guard of the scanners fires when the block is absent or has no
    [name]. *)
Lemma checked_frontmatter_None f :
  parse_frontmatter (text f) = None
  ∨ (∃ fm, parse_frontmatter (text f) = Some fm ∧ fm !! "name" = None) →
  checked_frontmatter f = None.
Proof.
  unfold checked_frontmatter. intros [->|(fm & -> & Hn)]; [done|].
  rewrite Hn. by destruct (bool_decide _).
Qed.

Lemma checked_frontmatter_Some f fm n :
  parse_frontmatter (text f) = Some fm → fm !! "name" = Some n →
  checked_frontmatter f = Some (n, fm).
Proof.
  unfold checked_frontmatter. intros -> Hn. rewrite Hn.
  rewrite bool_decide_eq_false_2; [done|]. intros ->. by rewrite lookup_empty in Hn.
Qed.

Section loops.
Context (REPO_ROOT : list string).

Lemma rules_fold files acc :
  fold_left (rules_step REPO_ROOT) files acc
  = (acc.1 ++ (rules_loop REPO_ROOT files).1, acc.2 ++ (rules_loop REPO_ROOT files).2).
Proof.
  unfold rules_loop. revert acc. induction files as [|f files IH]; intros [es ws].
  - simpl. by rewrite !(right_id_L [] (++)).
  - simpl. rewrite IH, (IH (rules_step _ _ _)). unfold rules_step. simpl.
    destruct (checked_frontmatter f) as [[n fm]|]; simpl;
      by rewrite <-!(assoc_L (++)).
Qed.

Lemma rules_loop_app pre post :
  rules_loop REPO_ROOT (pre ++ post)
  = ((rules_loop REPO_ROOT pre).1 ++ (rules_loop REPO_ROOT post).1,
     (rules_loop REPO_ROOT pre).2 ++ (rules_loop REPO_ROOT post).2).
Proof. unfold rules_loop at 1. by rewrite fold_left_app, rules_fold. Qed.

Lemma skills_fold_entries files m ws ws' :
  (fold_left (skills_step REPO_ROOT) files (m, ws)).1
  = (fold_left (skills_step REPO_ROOT) files (m, ws')).1.
Proof.
  revert m ws ws'. induction files as [|f files IH]; intros m ws ws'; [done|].
  simpl. unfold skills_step at 2 4. simpl.
  destruct (checked_frontmatter f) as [[n fm]|]; apply IH.
Qed.

Lemma skills_fold_warnings files m ws :
  (fold_left (skills_step REPO_ROOT) files (m, ws)).2
  = ws ++ (skills_loop REPO_ROOT files).2.
Proof.
  unfold skills_loop. revert m ws. generalize (∅ : gmap string (list entry)).
  induction files as [|f files IH]; intros m0 m ws.
  - simpl. by rewrite (right_id_L [] (++)).
  - simpl. unfold skills_step at 2 4. simpl.
    destruct (checked_frontmatter f) as [[n fm]|].
    + apply IH.
    + rewrite (IH m0 m (ws ++ _)), (IH m0 m0 [_]). by rewrite <-!(assoc_L (++)).
Qed.

Lemma agents_fold files acc :
  fold_left (agents_step REPO_ROOT) files acc = acc ++ agents_loop REPO_ROOT files.
Proof.
  unfold agents_loop. revert acc. induction files as [|f files IH]; intros acc.
  - simpl. by rewrite (right_id_L [] (++)).
  - simpl. rewrite IH, (IH (agents_step _ _ _)). unfold agents_step.
    repeat case_match; simpl; by rewrite <-?(assoc_L (++)), ?(right_id_L [] (++)).
Qed.

Lemma agents_loop_app pre post :
  agents_loop REPO_ROOT (pre ++ post)
  = agents_loop REPO_ROOT pre ++ agents_loop REPO_ROOT post.
Proof. unfold agents_loop at 1. by rewrite fold_left_app, agents_fold. Qed.
End loops.

Lemma custom_skills_fold files acc :
  fold_left custom_skills_step files acc = acc ++ custom_skills_loop files.
Proof.
  unfold custom_skills_loop. revert acc. induction files as [|f files IH]; intros acc.
  - simpl. by rewrite (right_id_L [] (++)).
  - simpl. rewrite IH, (IH (custom_skills_step _ _)). unfold custom_skills_step.
    repeat case_match; simpl; by rewrite <-?(assoc_L (++)), ?(right_id_L [] (++)).
Qed.

Lemma custom_agents_fold files acc :
  fold_left custom_agents_step files acc = acc ++ custom_agents_loop files.
Proof.
  unfold custom_agents_loop. revert acc. induction files as [|f files IH]; intros acc.
  - simpl. by rewrite (right_id_L [] (++)).
  - simpl. rewrite IH, (IH (custom_agents_step _ _)).
    unfold custom_agents_step, custom_skills_step.
    repeat case_match; simpl; by rewrite <-?(assoc_L (++)), ?(right_id_L [] (++)).
Qed.

(** C2, as the description states it, fails: a file below [agents] that has
    no frontmatter is passed over in silence, so the run prints no warning
    at all. *)
Lemma agents_scanner_skips_in_silence :
  let f := File ["agents"; "notes.md"] "Notes without a metadata block." in
  in_rglob_md ["agents"] f = true
  ∧ parse_frontmatter (text f) = None
  ∧ ¬ ∃ w, stderr (main ["srv"; "repo"] ["generate-catalog.py"] (World [f] [] [])).1 = [w].
Proof. split_and!; [done..|]. intros [w Hw]. vm_compute in Hw. discriminate. Qed.

(** C2, amended: a file whose block is absent or has no [name] adds no entry
    in any scanner, and the loop goes on with the files behind it; the rules
    and the skills scanner print exactly one warning for it, the agents
    scanner and the two custom scanners print none: all the warnings of a
    run are those of the rules and of the skills scanner. *)
Theorem skipped_file_adds_no_entry REPO_ROOT pre f post :
  parse_frontmatter (text f) = None
  ∨ (∃ fm, parse_frontmatter (text f) = Some fm ∧ fm !! "name" = None) →
  ((rules_loop REPO_ROOT (pre ++ f :: post)).1 = (rules_loop REPO_ROOT (pre ++ post)).1
   ∧ (rules_loop REPO_ROOT (pre ++ f :: post)).2
     = (rules_loop REPO_ROOT pre).2 ++ [warning REPO_ROOT f] ++ (rules_loop REPO_ROOT post).2)
  ∧ ((skills_loop REPO_ROOT (pre ++ f :: post)).1 = (skills_loop REPO_ROOT (pre ++ post)).1
     ∧ (skills_loop REPO_ROOT (pre ++ f :: post)).2
       = (skills_loop REPO_ROOT pre).2 ++ [warning REPO_ROOT f] ++ (skills_loop REPO_ROOT post).2)
  ∧ agents_loop REPO_ROOT (pre ++ f :: post) = agents_loop REPO_ROOT (pre ++ post)
  ∧ custom_skills_loop (pre ++ f :: post) = custom_skills_loop (pre ++ post)
  ∧ custom_agents_loop (pre ++ f :: post) = custom_agents_loop (pre ++ post)
  ∧ (∀ tree, (render_catalog REPO_ROOT tree).2
             = (discover_rules REPO_ROOT tree).2 ++ (discover_skills REPO_ROOT tree).2).
Proof.
  intros Hf%checked_frontmatter_None. split_and!;
    [..|intros tree; unfold render_catalog;
        by destruct (discover_rules _ _), (discover_skills _ _)].
  - rewrite !rules_loop_app. simpl. unfold rules_loop at 2. simpl.
    rewrite rules_fold. unfold rules_step. rewrite Hf. done.
  - rewrite !rules_loop_app. simpl. unfold rules_loop at 2. simpl.
    rewrite rules_fold. unfold rules_step. rewrite Hf. done.
  - unfold skills_loop. rewrite !fold_left_app. simpl.
    unfold skills_step at 2. rewrite Hf.
    destruct (fold_left _ pre _) as [m ws]. apply skills_fold_entries.
  - unfold skills_loop at 1. rewrite fold_left_app. simpl.
    unfold skills_step at 2. rewrite Hf.
    fold (skills_loop REPO_ROOT pre). destruct (skills_loop REPO_ROOT pre) as [m ws].
    simpl. by rewrite skills_fold_warnings, <-(assoc_L (++)).
  - rewrite !agents_loop_app. f_equal. unfold agents_loop. simpl.
    rewrite agents_fold. unfold agents_step. rewrite Hf. by repeat case_match.
  - unfold custom_skills_loop. rewrite !fold_left_app. simpl.
    unfold custom_skills_step at 2. by rewrite Hf.
  - unfold custom_agents_loop. rewrite !fold_left_app. simpl.
    unfold custom_agents_step at 2, custom_skills_step. rewrite Hf. by case_match.
Qed.

Lemma skipped_file_witness :
  let f := File ["rules"; "style.md"] "No block." in
  (rules_loop ["srv"; "repo"] [f]).1 = []
  ∧ (rules_loop ["srv"; "repo"] [f]).2
    = ["WARNING: /srv/repo/rules/style.md has no frontmatter, skipping"].
Proof.
  destruct (skipped_file_adds_no_entry ["srv"; "repo"] []
              (File ["rules"; "style.md"] "No block.") [] (or_introl eq_refl))
    as [[H1 H2] _].
  split; [exact H1|exact H2].
Defined.





(** ** The rendered lines *)

Lemma counted_last title n : Str.last_char (counted title n) = Some ")"%char.
Proof.
  unfold counted.
  rewrite last_char_app by (intros H; by apply (f_equal String.length) in H).
  change (" (" +:+ Str.of_nat n +:+ ")") with (String " " (String "(" (Str.of_nat n +:+ ")"))).
  pose proof (last_char_app_char (Str.of_nat n) ")") as H.
  cbn [Str.last_char Str.is_empty].
  destruct (Str.of_nat n +:+ ")") eqn:E; [by destruct (Str.of_nat n)|done].
Qed.

Section skills_section.
Context (m : gmap string (list entry)).

(** The heading of the subsection of a category. *)
Let heading (cat : string) (l : list entry) : string :=
  counted ("### " +:+ default (Str.title cat) (SKILL_CATEGORY_DISPLAY !! cat)) (length l).

Lemma skills_fold_prefix cats lines :
  fold_left (skills_subsection m) cats lines
  = lines ++ fold_left (skills_subsection m) cats [].
Proof.
  revert lines. induction cats as [|cat cats IH]; intros lines; simpl.
  - by rewrite (right_id_L [] (++)).
  - rewrite IH, (IH (skills_subsection _ _ _)). unfold skills_subsection.
    case_bool_decide; [done|]. by rewrite <-!app_assoc.
Qed.

Lemma skills_fold_elem cats x :
  x ∈ fold_left (skills_subsection m) cats [] →
  ∃ cat l, cat ∈ cats ∧ m !! cat = Some l ∧ l ≠ []
           ∧ (Str.startswith "#" x = true → x = heading cat l).
Proof.
  induction cats as [|cat cats IH]; simpl; [by intros ?%elem_of_nil|].
  rewrite skills_fold_prefix. intros [H|H]%elem_of_app.
  - unfold skills_subsection in H. case_bool_decide as Hl; [by apply elem_of_nil in H|].
    destruct (m !! cat) as [l|] eqn:E; [|done]. simpl in *.
    exists cat, l. split_and!; [by left|done..|]. intros Hs.
    split_mem H; subst; first [done|by vm_compute in Hs].
  - destruct (IH H) as (c & l & ? & ? & ? & ?). exists c, l.
    split_and!; [by right|done..].
Qed.

Lemma skills_fold_heading cats cat l :
  cat ∈ cats → m !! cat = Some l → l ≠ [] →
  heading cat l ∈ fold_left (skills_subsection m) cats [].
Proof.
  induction cats as [|c cats IH]; [by intros ?%elem_of_nil|].
  intros Hin Hl Hne. simpl. rewrite skills_fold_prefix, elem_of_app.
  apply elem_of_cons in Hin as [<-|Hin]; [|right; by apply IH].
  left. unfold skills_subsection. rewrite Hl. simpl.
  rewrite bool_decide_eq_false_2 by done. by left.
Qed.
End skills_section.


(** The headings among the elements of the list [lines]. *)
Lemma render_lines_headings rules m agents custom_skills custom_agents :
  let lines := render_lines rules m agents custom_skills custom_agents in
  let heading cat l :=
    counted ("### " +:+ default (Str.title cat) (SKILL_CATEGORY_DISPLAY !! cat))
      (length l) in
  (∀ line, line ∈ lines → Str.startswith "#" line = true →
     line = "# Skill Library — Catalog" ∨ line = "## Custom"
     ∨ line = counted "## Rules" (length rules)
     ∨ line = counted "## Skills" (total_skills m)
     ∨ line = counted "## Agents" (length agents)
     ∨ (∃ cat l, cat ∈ SKILL_CATEGORY_ORDER ∧ m !! cat = Some l ∧ l ≠ []
                 ∧ line = heading cat l)
     ∨ (custom_skills ≠ [] ∧ line = counted "### Custom Skills" (length custom_skills))
     ∨ (custom_agents ≠ [] ∧ line = counted "### Custom Agents" (length custom_agents)))
  ∧ counted "## Rules" (length rules) ∈ lines
  ∧ counted "## Skills" (total_skills m) ∈ lines
  ∧ counted "## Agents" (length agents) ∈ lines
  ∧ (∀ cat l, cat ∈ SKILL_CATEGORY_ORDER → m !! cat = Some l → l ≠ [] →
       heading cat l ∈ lines)
  ∧ (custom_skills ≠ [] → counted "### Custom Skills" (length custom_skills) ∈ lines)
  ∧ (custom_agents ≠ [] → counted "### Custom Agents" (length custom_agents) ∈ lines).
Proof.
  intros lines heading. subst lines. unfold render_lines.
  rewrite (skills_fold_prefix m SKILL_CATEGORY_ORDER).
  set (subsections := fold_left (skills_subsection m) SKILL_CATEGORY_ORDER []).
  split_and!.
  - intros line Hin Hs.
    repeat case_bool_decide; cbn [negb orb] in Hin; split_mem Hin; subst;
      first [ by vm_compute in Hs
            | by eauto 10
            | apply skills_fold_elem in Hin as (cat & l & ? & ? & ? & Hh);
              rewrite (Hh Hs); do 5 right; left; by exists cat, l ].
  - repeat case_bool_decide; cbn [negb orb]; find_mem.
  - repeat case_bool_decide; cbn [negb orb]; find_mem.
  - repeat case_bool_decide; cbn [negb orb]; find_mem.
  - intros cat l Hcat Hl Hne.
    pose proof (skills_fold_heading m _ cat l Hcat Hl Hne) as H. fold subsections in H.
    repeat case_bool_decide; cbn [negb orb]; find_in H.
  - intros Hne. repeat case_bool_decide; cbn [negb orb]; [done..| |]; find_mem.
  - intros Hne. repeat case_bool_decide; cbn [negb orb]; [done| |done|]; find_mem.
Qed.

(** *** The lines of the document

    An element of [lines] is one line of the document when it holds no
    newline; the name and the path of an entry can hold one. *)

Section lacks.
Context (d : ascii) (Hd : d = NL ∨ d = CR).

Lemma of_uint_lacks n : has_char d (NilEmpty.string_of_uint n) = false.
Proof. induction n; simpl; try done; by destruct Hd as [->| ->]. Qed.

Lemma of_nat_lacks n : has_char d (Str.of_nat n) = false.
Proof.
  unfold Str.of_nat, NilZero.string_of_uint.
  destruct (Nat.to_uint n); try apply of_uint_lacks. by destruct Hd as [->| ->].
Qed.

Lemma counted_lacks title n :
  has_char d title = false → has_char d (counted title n) = false.
Proof.
  intros H. unfold counted. rewrite !has_char_app, H, of_nat_lacks.
  by destruct Hd as [->| ->].
Qed.

Lemma lacks_fields e :
  lacks d e →
  has_char d (name e) = false ∧ has_char d (description e) = false
  ∧ has_char d (default EmptyString (category e)) = false
  ∧ has_char d (path e) = false.
Proof.
  unfold lacks.
  destruct (has_char d (name e)), (has_char d (description e)),
    (has_char d (default EmptyString (category e))), (has_char d (path e)); done.
Qed.

Lemma row_lacks e : lacks d e → has_char d (row e) = false.
Proof.
  intros (Hn & Hdesc & _ & Hp)%lacks_fields. unfold row.
  rewrite !has_char_app, Hn, Hdesc, Hp. by destruct Hd as [->| ->].
Qed.

Lemma agent_row_lacks e : lacks d e → has_char d (agent_row e) = false.
Proof.
  intros (Hn & Hdesc & Hc & Hp)%lacks_fields. unfold agent_row.
  rewrite !has_char_app, Hn, Hdesc, Hp, Hc. by destruct Hd as [->| ->].
Qed.

Lemma rows_lack l :
  Forall (lacks d) l → Forall (λ line, has_char d line = false) (row <$> l).
Proof. intros H. apply Forall_fmap. eapply Forall_impl; [done|]. apply row_lacks. Qed.

Lemma agent_rows_lack l :
  Forall (lacks d) l → Forall (λ line, has_char d line = false) (agent_row <$> l).
Proof. intros H. apply Forall_fmap. eapply Forall_impl; [done|]. apply agent_row_lacks. Qed.

Lemma skills_fold_lacks m cats lines :
  map_Forall (λ _ l, Forall (lacks d) l) m →
  Forall (λ cat, has_char d (default (Str.title cat) (SKILL_CATEGORY_DISPLAY !! cat)) = false)
    cats →
  Forall (λ line, has_char d line = false) lines →
  Forall (λ line, has_char d line = false) (fold_left (skills_subsection m) cats lines).
Proof.
  intros Hm Hcats. revert lines. induction Hcats as [|cat cats Hcat _ IH]; intros lines Hl.
  - done.
  - simpl. apply IH. unfold skills_subsection. case_bool_decide; [done|].
    destruct (m !! cat) as [l|] eqn:E; [|done]. simpl in *.
    rewrite Forall_app. split; [done|].
    apply Forall_cons; split.
    { apply counted_lacks. rewrite has_char_app, Hcat. by destruct Hd as [->| ->]. }
    do 3 (apply Forall_cons; split; [by destruct Hd as [->| ->]|]).
    apply Forall_app; split; [by apply rows_lack, (Hm cat)|by repeat constructor].
Qed.

Lemma display_lacks :
  Forall (λ cat, has_char d (default (Str.title cat) (SKILL_CATEGORY_DISPLAY !! cat)) = false)
    SKILL_CATEGORY_ORDER.
Proof. destruct Hd as [->| ->]; by repeat constructor. Qed.

Lemma render_lines_lack rules m agents custom_skills custom_agents :
  Forall (lacks d) rules → map_Forall (λ _ l, Forall (lacks d) l) m →
  Forall (lacks d) agents → Forall (lacks d) custom_skills → Forall (lacks d) custom_agents →
  Forall (λ line, has_char d line = false)
    (render_lines rules m agents custom_skills custom_agents).
Proof.
  intros Hr Hm Ha Hcs Hca. unfold render_lines.
  repeat case_bool_decide; cbn [negb orb];
    repeat first
      [ apply skills_fold_lacks; [done|apply display_lacks|]
      | by apply rows_lack
      | by apply agent_rows_lack
      | apply Forall_app; split
      | apply Forall_nil_2
      | apply Forall_cons; split
      | by apply counted_lacks; destruct Hd as [->| ->]
      | by destruct Hd as [->| ->] ].
Qed.

End lacks.

Lemma render_lines_not_nil rules m agents custom_skills custom_agents :
  render_lines rules m agents custom_skills custom_agents ≠ [].
Proof.
  unfold render_lines. intros H. apply (f_equal length) in H. revert H.
  repeat case_bool_decide; cbn [negb orb]; rewrite ?length_app; simpl; lia.
Qed.

(** The lines of the document are the elements of [lines] when no entry
    holds a newline. *)
Lemma lines_of_render rules m agents custom_skills custom_agents :
  Forall one_line rules → map_Forall (λ _ l, Forall one_line l) m →
  Forall one_line agents → Forall one_line custom_skills → Forall one_line custom_agents →
  lines_of (Str.join newline (render_lines rules m agents custom_skills custom_agents))
  = render_lines rules m agents custom_skills custom_agents.
Proof.
  intros. unfold lines_of. apply split_join.
  - apply render_lines_not_nil.
  - apply render_lines_lack; [by left|done..].
Qed.

(** A name that holds a newline, which a quoted value can bring in with an
    escape, splits its row: the document gets a line of its own making,
    here one that reads as a heading. *)
Example newline_in_name_adds_line :
  let rule := Entry ("a" +:+ newline +:+ "## Injected") "Does." None "../rules/a.md" in
  one_line rule = false
  ∧ "## Injected](../rules/a.md) | Does. |"
    ∈ lines_of (Str.join newline (render_lines [rule] ∅ [] [] [])).
Proof. split; [reflexivity|]. vm_compute. find_mem. Qed.




(** ** Check mode *)

Lemma list_find_parts tree f :
  NoDup (parts <$> tree) → f ∈ tree →
  ∃ i, list_find (λ g, parts g = parts f) tree = Some (i, f).
Proof.
  induction tree as [|g tree IH]; intros Hnd Hin; [by apply elem_of_nil in Hin|].
  rewrite fmap_cons in Hnd. apply NoDup_cons in Hnd as [Hg Hnd].
  cbn [list_find]. apply elem_of_cons in Hin as [->|Hin].
  - exists 0. by rewrite decide_True.
  - rewrite decide_False.
    + destruct (IH Hnd Hin) as [i ->]. by exists (S i).
    + intros Heq. apply Hg. rewrite Heq. by apply list_elem_of_fmap_2.
Qed.

Lemma list_find_parts_None tree p :
  (∀ f, f ∈ tree → parts f ≠ p) → list_find (λ g, parts g = p) tree = None.
Proof.
  intros Hp. apply list_find_None, Forall_forall. intros f Hf. by apply Hp.
Qed.




(** ** Skills outside the display order *)

Lemma total_skills_delete m cat l :
  m !! cat = Some l → total_skills m = total_skills (delete cat m) + length l.
Proof.
  intros Hl. unfold total_skills.
  rewrite (map_fold_delete_L _ _ cat l m); [lia| |done].
  intros. lia.
Qed.

Lemma skills_subsection_delete m cat cats lines :
  cat ∉ cats →
  fold_left (skills_subsection (delete cat m)) cats lines
  = fold_left (skills_subsection m) cats lines.
Proof.
  revert lines. induction cats as [|c cats IH]; intros lines Hcat; [done|].
  apply not_elem_of_cons in Hcat as [Hne Hcat]. simpl.
  rewrite IH by done. f_equal. unfold skills_subsection.
  by rewrite lookup_delete_ne.
Qed.




(** ** The order of the traversal *)

Lemma compare_Lt_Gt s t : String.compare s t = Lt ↔ String.compare t s = Gt.
Proof.
  rewrite (String.compare_antisym t s). destruct (String.compare s t); simpl; split; done.
Qed.

Lemma compare_Lt_trans s t u :
  String.compare s t = Lt → String.compare t u = Lt → String.compare s u = Lt.
Proof.
  intros Hst Htu.
  assert (String.le s t ∧ String.le t u) as [H1 H2].
  { unfold String.le, String.leb. by rewrite Hst, Htu. }
  pose proof (transitivity H1 H2) as H3. unfold String.le, String.leb in H3.
  destruct (String.compare s u) eqn:E; [|done..].
  apply String.compare_eq_iff in E as ->.
  apply compare_Lt_Gt in Htu. congruence.
Qed.

Lemma path_leb_total p q : path_leb p q = true ∨ path_leb q p = true.
Proof.
  revert q. induction p as [|x p IH]; intros [|y q]; simpl; auto.
  rewrite (String.compare_antisym y x).
  destruct (String.compare x y); simpl; auto.
Qed.

Lemma path_leb_antisym p q : path_leb p q = true → path_leb q p = true → p = q.
Proof.
  revert q. induction p as [|x p IH]; intros [|y q]; simpl; try done.
  rewrite (String.compare_antisym y x).
  destruct (String.compare x y) eqn:E; simpl; try done.
  apply String.compare_eq_iff in E as ->. intros. f_equal. auto.
Qed.

Lemma path_leb_trans p q r :
  path_leb p q = true → path_leb q r = true → path_leb p r = true.
Proof.
  revert q r. induction p as [|x p IH]; intros [|y q] [|z r]; simpl; try done.
  destruct (String.compare x y) eqn:Exy; try done;
    destruct (String.compare y z) eqn:Eyz; try done.
  - apply String.compare_eq_iff in Exy as ->. rewrite Eyz. eauto.
  - apply String.compare_eq_iff in Exy as ->. by rewrite Eyz.
  - apply String.compare_eq_iff in Eyz as ->. by rewrite Exy.
  - by rewrite (compare_Lt_trans _ _ _ Exy Eyz).
Qed.

Global Instance file_le_total : Total file_le.
Proof.
  intros f g. unfold file_le.
  destruct (path_leb_total (parts f) (parts g)) as [-> | ->]; auto.
Qed.

Global Instance file_le_trans : Transitive file_le.
Proof.
  intros f g h ?%Is_true_true ?%Is_true_true. apply Is_true_true.
  by eapply path_leb_trans.
Qed.

(** Among files of different paths the order is antisymmetric, so a
    listing has one sorted arrangement only. *)
Lemma sorted_Permutation l1 l2 :
  NoDup (parts <$> l1) → l1 ≡ₚ l2 → sorted l1 = sorted l2.
Proof.
  intros Hnd Hperm. unfold sorted.
  apply (Sorted_unique_strong file_le).
  - intros f g Hf Hg ?%Is_true_true ?%Is_true_true.
    assert (parts f = parts g) as Hfg by by apply path_leb_antisym.
    rewrite (merge_sort_Permutation file_le) in Hf.
    rewrite (merge_sort_Permutation file_le), <-Hperm in Hg.
    clear -Hnd Hf Hg Hfg. induction l1 as [|h l1 IH]; [by apply elem_of_nil in Hf|].
    rewrite fmap_cons in Hnd. apply NoDup_cons in Hnd as [Hh Hnd].
    apply elem_of_cons in Hf as [->|Hf], Hg as [->|Hg]; [done|..|by apply IH].
    + destruct Hh. rewrite Hfg. by apply list_elem_of_fmap_2.
    + destruct Hh. rewrite <-Hfg. by apply list_elem_of_fmap_2.
  - apply Sorted_merge_sort, _.
  - apply Sorted_merge_sort, _.
  - by rewrite !merge_sort_Permutation.
Qed.

Lemma NoDup_parts_filter (P : file → Prop) `{∀ f, Decision (P f)} l :
  NoDup (parts <$> l) → NoDup (parts <$> filter P l).
Proof.
  intros Hnd. eapply sublist_NoDup; [done|].
  apply fmap_sublist, sublist_filter.
Qed.

Lemma dir_exists_Permutation dir l1 l2 :
  l1 ≡ₚ l2 → dir_exists dir l1 = dir_exists dir l2.
Proof.
  intros Hperm. unfold dir_exists. apply bool_decide_ext.
  rewrite !Exists_exists. by setoid_rewrite Hperm.
Qed.

(** C9: the catalog is a function of the set of files with their texts;
    the order in which the file system enumerates them plays no part, so
    two runs on a tree that has not changed give the same text. *)
Theorem render_catalog_deterministic REPO_ROOT tree1 tree2 :
  NoDup (parts <$> tree1) → tree1 ≡ₚ tree2 →
  render_catalog REPO_ROOT tree1 = render_catalog REPO_ROOT tree2.
Proof.
  intros Hnd Hperm.
  unfold render_catalog, discover_rules, discover_skills, discover_agents,
    discover_custom_skills, discover_custom_agents.
  unfold glob_md, rglob_md, rglob_skill.
  rewrite !(dir_exists_Permutation _ tree1 tree2) by done.
  rewrite (sorted_Permutation (filter (λ f, in_glob_md ["rules"] f) tree1)
             (filter (λ f, in_glob_md ["rules"] f) tree2))
    by (by apply NoDup_parts_filter || by rewrite Hperm).
  rewrite (sorted_Permutation (filter (λ f, in_rglob_skill ["skills"] f) tree1)
             (filter (λ f, in_rglob_skill ["skills"] f) tree2))
    by (by apply NoDup_parts_filter || by rewrite Hperm).
  rewrite (sorted_Permutation (filter (λ f, in_rglob_md ["agents"] f) tree1)
             (filter (λ f, in_rglob_md ["agents"] f) tree2))
    by (by apply NoDup_parts_filter || by rewrite Hperm).
  rewrite (sorted_Permutation (filter (λ f, in_rglob_skill ["custom"; "skills"] f) tree1)
             (filter (λ f, in_rglob_skill ["custom"; "skills"] f) tree2))
    by (by apply NoDup_parts_filter || by rewrite Hperm).
  rewrite (sorted_Permutation (filter (λ f, in_rglob_md ["custom"; "agents"] f) tree1)
             (filter (λ f, in_rglob_md ["custom"; "agents"] f) tree2))
    by (by apply NoDup_parts_filter || by rewrite Hperm).
  reflexivity.
Qed.

Lemma render_catalog_deterministic_witness :
  let a := File ["rules"; "a.md"] (Str.join newline ["---"; "name: a"; "---"; "A"]) in
  let b := File ["rules"; "b.md"] (Str.join newline ["---"; "name: b"; "---"; "B"]) in
  render_catalog ["srv"; "repo"] [b; a] = render_catalog ["srv"; "repo"] [a; b].
Proof.
  intros a b. apply render_catalog_deterministic.
  - apply (bool_decide_unpack (NoDup _)). vm_compute. exact I.
  - apply perm_swap.
Defined.


(** * Further properties *)

(** ** What the parser keeps *)

(** The step of the loop, seen through the dictionary that the flush at
    the end would give. *)
Lemma flush_parse_line st line :
  flush_key (parse_line st line) =
    match Re.YAML_KEY_RE line with
    | Some (k, v) =>
        <[k := _flush (current_lines (parse_line st line))]> (flush_key st)
    | None =>
        match current_key st with
        | Some k => <[k := _flush (current_lines (parse_line st line))]> (result st)
        | None => result st
        end
    end.
Proof.
  destruct (Re.YAML_KEY_RE line) as [[k v]|] eqn:E.
  - rewrite (parse_line_key _ _ _ _ E). by destruct (String.eqb _ _).
  - rewrite parse_line_other by done. unfold continuation, flush_key.
    destruct (is_multiline st), (current_key st) eqn:Ek; simpl; rewrite ?Ek; try done.
Qed.

(** X1: every value of the dictionary that [_parse_yaml_flat] returns has
    passed through [_flush]: it has no white space at either end. *)
Theorem parsed_values_are_stripped raw k v :
  _parse_yaml_flat raw !! k = Some v → Str.strip v = v.
Proof.
  unfold _parse_yaml_flat, parse_lines.
  assert (∀ lines st,
            (∀ k v, flush_key st !! k = Some v → Str.strip v = v) →
            ∀ k v, flush_key (fold_left parse_line lines st) !! k = Some v →
                   Str.strip v = v) as Hinv.
  { induction lines as [|l lines IH]; intros st Hst; [done|]. simpl.
    apply IH. intros k' v'. rewrite flush_parse_line.
    assert (∀ x, Str.strip (_flush x) = _flush x) as Hfl
      by (intros; apply strip_idemp).
    destruct (Re.YAML_KEY_RE l) as [[k0 v0]|].
    - rewrite lookup_insert. case_decide; [intros [= <-]; apply Hfl|apply Hst].
    - destruct (current_key st) as [k0|] eqn:E.
      + rewrite lookup_insert. case_decide; [intros [= <-]; apply Hfl|].
        intros Hr. apply (Hst k'). unfold flush_key. rewrite E.
        by rewrite lookup_insert_ne.
      + intros Hr. apply (Hst k'). unfold flush_key. by rewrite E. }
  apply Hinv. intros k' v'. unfold flush_key. simpl. by rewrite lookup_empty.
Qed.

Lemma parsed_values_witness :
  _parse_yaml_flat "name:   a b  " !! "name" = Some "a b" ∧ Str.strip "a b" = "a b".
Proof.
  split; [reflexivity|].
  apply (parsed_values_are_stripped ("name:   a b  ") "name" "a b"). reflexivity.
Defined.

(** X2: the keys of the dictionary are the keys of the lines that
    [YAML_KEY_RE] matches, no more and no fewer. *)
Theorem parsed_keys_are_key_lines raw k :
  is_Some (_parse_yaml_flat raw !! k) ↔
  ∃ line v, line ∈ Str.split NL raw ∧ Re.YAML_KEY_RE line = Some (k, v).
Proof.
  unfold _parse_yaml_flat, parse_lines.
  assert (∀ lines st,
            is_Some (flush_key (fold_left parse_line lines st) !! k) ↔
            is_Some (flush_key st !! k)
            ∨ ∃ line v, line ∈ lines ∧ Re.YAML_KEY_RE line = Some (k, v)) as Hinv.
  { induction lines as [|l lines IH]; intros st; simpl.
    - split; [by left|]. intros [?|(? & ? & ?%elem_of_nil & _)]; done.
    - rewrite IH, flush_parse_line.
      assert (is_Some (flush_key (parse_line st l) !! k) ↔
              is_Some (flush_key st !! k) ∨ ∃ v, Re.YAML_KEY_RE l = Some (k, v)) as Hstep.
      { rewrite flush_parse_line. destruct (Re.YAML_KEY_RE l) as [[k0 v0]|].
        - rewrite lookup_insert. case_decide as Hk.
          + subst. split; [right; eauto|by eauto].
          + split; [by left|]. intros [?|[? [= ? ?]]]; [done|by subst].
        - unfold flush_key. destruct (current_key st) as [k0|].
          + rewrite !lookup_insert. case_decide.
            * split; [left; by eauto|by eauto].
            * split; [by left|]. by intros [?|[? ?]].
          + split; [by left|]. by intros [?|[? ?]]. }
      rewrite <-flush_parse_line, Hstep. split.
      + intros [[?|[v Hv]]|(line & v & ? & ?)]; [by left|right..].
        * exists l, v. split; [by left|done].
        * exists line, v. split; [by right|done].
      + intros [?|(line & v & [->|?]%elem_of_cons & Hv)].
        * by left; left.
        * left; right. eauto.
        * right. eauto. }
  rewrite Hinv. unfold flush_key at 1. simpl. rewrite lookup_empty. split.
  - intros [[? [=]]|?]. done.
  - by right.
Qed.

(** Lines that [YAML_KEY_RE] does not match leave a one-line value alone. *)
Lemma parse_plain_value k post st :
  current_key st = Some k → is_multiline st = false →
  Forall (λ l, ∀ v, Re.YAML_KEY_RE l ≠ Some (k, v)) post →
  flush_key (fold_left parse_line post st) !! k = Some (_flush (current_lines st)).
Proof.
  revert st. induction post as [|l post IH]; intros st Hk Hm Hpost; simpl.
  - unfold flush_key. rewrite Hk. by rewrite lookup_insert_eq.
  - inv Hpost. destruct (Re.YAML_KEY_RE l) as [[k' v']|] eqn:E.
    + assert (k' ≠ k) by (intros ->; by eapply H1).
      destruct (parse_keeps_other_key k (_flush (current_lines st)) post
                  (parse_line st l)) as [Hr Hc]; [done|..].
      * rewrite (parse_line_key _ _ _ _ E).
        assert (flush_key st !! k = Some (_flush (current_lines st))) as Hf.
        { unfold flush_key. rewrite Hk. by rewrite lookup_insert_eq. }
        by destruct (String.eqb _ _).
      * rewrite (parse_line_key _ _ _ _ E).
        destruct (String.eqb _ _); simpl; congruence.
      * set (st' := fold_left parse_line post (parse_line st l)) in *.
        unfold flush_key at 1. destruct (current_key st') as [ck|]; [|done].
        rewrite lookup_insert_ne; [done|congruence].
    + rewrite parse_line_other by done. unfold continuation. rewrite Hm. simpl.
      by apply IH.
Qed.

(** X3: for lines in ASCII, a key line whose value is not the marker [|]
    gives the key the text behind the colon without the white space at its
    two ends, and when that text stands in quotes, what is between them,
    unescaped and again without white space at its ends.  The lines below
    it that are no key lines are ignored, and a value the key had further
    up is replaced. *)
Theorem plain_value_ignores_continuation pre hd k v core post :
  Forall (λ l, has_char NL l = false) (pre ++ hd :: post) →
  Forall (λ l, Str.isascii l = true) (hd :: post) →
  Re.YAML_KEY_RE hd = Some (k, v) → stripped_of v core → core ≠ "|" →
  Forall (λ l, ∀ v', Re.YAML_KEY_RE l ≠ Some (k, v')) post →
  ∃ value,
    stripped_of (if is_quoted core then unescape (Str.strip_ends core) else core) value
    ∧ _parse_yaml_flat (Str.join newline (pre ++ hd :: post)) !! k = Some value.
Proof.
  intros Hnl _ Hhd ->%stripped_of_strip Hv Hpost.
  eexists. split; [apply strip_spec|].
  unfold _parse_yaml_flat, parse_lines.
  rewrite split_join by (done || by destruct pre).
  rewrite fold_left_app. simpl. rewrite (parse_line_key _ _ _ _ Hhd).
  apply String.eqb_neq in Hv. rewrite Hv.
  by rewrite (parse_plain_value k post) by done.
Qed.

Lemma plain_value_witness :
  _parse_yaml_flat
    (Str.join newline ["name: old"; "name:   ' new one '  "; "  - a list item"; "model: m"])
    !! "name" = Some "new one".
Proof.
  destruct (plain_value_ignores_continuation ["name: old"] "name:   ' new one '  "
              "name" "' new one '  " "' new one '" ["  - a list item"; "model: m"])
    as (value & Hvalue & Hparsed).
  - by repeat constructor.
  - by repeat constructor.
  - reflexivity.
  - exists EmptyString, "  ". split_and!; [reflexivity|exact I|exact I|..];
      intros c [= <-]; reflexivity.
  - discriminate.
  - repeat constructor; intros v'; vm_compute; discriminate.
  - refine (eq_trans Hparsed _). apply stripped_of_strip in Hvalue as ->. reflexivity.
Defined.

(** ** The key expression *)

Lemma span_spec p s :
  s = (Str.span p s).1 +:+ (Str.span p s).2
  ∧ str_forall p (Str.span p s).1
  ∧ match (Str.span p s).2 with
    | EmptyString => True
    | String c _ => p c = false
    end.
Proof.
  induction s as [|c s (IH1 & IH2 & IH3)]; [done|]. simpl.
  destruct (p c) eqn:E; [|by rewrite ?E].
  destruct (Str.span p s) as [a b]. simpl in *.
  rewrite str_app_cons, <-IH1, ?E. done.
Qed.

Lemma span_app p a b :
  str_forall p a →
  match b with EmptyString => True | String c _ => p c = false end →
  Str.span p (a +:+ b) = (a, b).
Proof.
  intros Ha Hb. induction a as [|c a IH].
  - rewrite str_app_nil_l. destruct b as [|c b]; [done|]. simpl. by rewrite Hb.
  - simpl in Ha. apply andb_prop_elim in Ha as [Hc Ha].
    rewrite str_app_cons. simpl. rewrite IH by done.
    by destruct (p c).
Qed.

Lemma span_notnl s :
  has_char NL s = false → Str.span Re.notnl s = (s, EmptyString).
Proof.
  induction s as [|c s IH]; [done|]. simpl. unfold Re.notnl at 1.
  intros [-> Hs]%orb_false_iff. simpl. by rewrite IH.
Qed.

Lemma lstrip_fixed v :
  Str.lstrip v = v ↔ ∀ c, first_char v = Some c → isspace c = false.
Proof.
  destruct v as [|c v]; [done|]. simpl. split.
  - intros H c' [= <-]. destruct (isspace c) eqn:E; [|done].
    destruct (lstrip_spec v) as (ws & Hv & _). rewrite H in Hv.
    apply (f_equal String.length) in Hv. rewrite str_length_app in Hv. simpl in Hv. lia.
  - intros H. by rewrite (H c).
Qed.

Lemma key_line_parts line k v :
  has_char NL line = false →
  Re.YAML_KEY_RE line = Some (k, v) ↔
  ∃ ws1 ws2,
    line = k +:+ ws1 +:+ ":" +:+ ws2 +:+ v
    ∧ is_key k ∧ all_space ws1 ∧ all_space ws2 ∧ Str.lstrip v = v.
Proof.
  intros Hnl. split.
  - destruct line as [|c rest]; [done|]. unfold Re.YAML_KEY_RE.
    destruct (isword c) eqn:Hc; [|done].
    destruct (span_spec Re.iskeychar rest) as (Hrest & Hk & _).
    destruct (Str.span Re.iskeychar rest) as [k' r1]. simpl in Hrest, Hk.
    destruct (lstrip_spec r1) as (ws1 & Hr1 & Hws1 & _).
    destruct (Str.lstrip r1) as [|c2 r2]; [done|].
    destruct (Ascii.eqb_spec c2 ":") as [->|Hne];
      [|by destruct c2 as [[] [] [] [] [] [] [] []]].
    destruct (lstrip_spec r2) as (ws2 & Hr2 & Hws2 & _).
    assert (has_char NL (Str.lstrip r2) = false) as Hnl'.
    { rewrite Hrest, Hr1, Hr2 in Hnl. simpl in Hnl.
      rewrite !has_char_app in Hnl. simpl in Hnl. rewrite has_char_app in Hnl.
      apply orb_false_iff in Hnl as [_ Hnl]. apply orb_false_iff in Hnl as [_ Hnl].
      apply orb_false_iff in Hnl as [_ Hnl]. by apply orb_false_iff in Hnl as [_ Hnl]. }
    rewrite (span_notnl _ Hnl'). intros [= <- <-].
    exists ws1, ws2. split_and!.
    + rewrite str_app_cons. f_equal. rewrite Hrest at 1. f_equal.
      rewrite Hr1 at 1. f_equal. change (":" +:+ ?x) with (String ":" x). f_equal. done.
    + simpl. rewrite Hc. done.
    + done.
    + done.
    + apply lstrip_idemp.
  - intros (ws1 & ws2 & -> & Hk & Hws1 & Hws2 & Hv).
    destruct k as [|c k']; [done|]. simpl in Hk.
    apply andb_prop_elim in Hk as [Hc Hk]. rewrite str_app_cons in *.
    unfold Re.YAML_KEY_RE. destruct (isword c); [|done].
    rewrite (span_app Re.iskeychar k' (ws1 +:+ ":" +:+ ws2 +:+ v)); [|done|].
    2:{ destruct ws1 as [|c1 ws1]; [done|]. rewrite str_app_cons.
        simpl in Hws1. apply andb_prop_elim in Hws1 as [Hc1 _].
        by destruct c1 as [[] [] [] [] [] [] [] []]. }
    rewrite lstrip_app_space by done.
    change (":" +:+ ws2 +:+ v) with (String ":" (ws2 +:+ v)) in *.
    rewrite lstrip_nonspace by done. rewrite lstrip_app_space, Hv by done.
    simpl in Hnl. rewrite !has_char_app in Hnl. simpl in Hnl. rewrite !has_char_app in Hnl.
    assert (has_char NL v = false) as Hnl'.
    { repeat (apply orb_false_iff in Hnl as [_ Hnl]). exact Hnl. }
    by rewrite span_notnl.
Qed.

(** X4: on a line of ASCII without a newline, [YAML_KEY_RE] matches exactly
    the lines made of a key, white space, a colon, white space and a value
    that does not start with white space, and its two groups are that key
    and that value. *)
Theorem key_line_shape line k v :
  has_char NL line = false → Str.isascii line = true →
  Re.YAML_KEY_RE line = Some (k, v) ↔
  ∃ ws1 ws2,
    line = k +:+ ws1 +:+ ":" +:+ ws2 +:+ v
    ∧ is_key k ∧ all_space ws1 ∧ all_space ws2
    ∧ ∀ c, first_char v = Some c → isspace c = false.
Proof.
  intros Hnl _. rewrite (key_line_parts _ _ _ Hnl).
  split; intros (ws1 & ws2 & ? & ? & ? & ? & Hv); exists ws1, ws2;
    split_and!; try done; by apply lstrip_fixed.
Qed.

Lemma key_line_shape_witness :
  Re.YAML_KEY_RE "allowed-tools :  Read" = Some ("allowed-tools", "Read").
Proof.
  apply (key_line_shape "allowed-tools :  Read" "allowed-tools" "Read" eq_refl eq_refl).
  exists " ", "  ". split_and!; [reflexivity|exact I|exact I|exact I|].
  intros c [= <-]. reflexivity.
Defined.


(** ** Values without escapes *)

Lemma replace_absent a o new s :
  has_char a s = false → Str.replace (String a o) new s = s.
Proof.
  induction s as [|c s IH]; [done|]. simpl. intros [Hc Hs]%orb_false_iff.
  rewrite (replace_cons (String a o) new c s); [by rewrite IH|].
  cbn [String.prefix]. destruct (ascii_dec a c) as [->|]; [|done].
  by rewrite Ascii.eqb_refl in Hc.
Qed.

(** X5: a quoted value that holds no backslash is taken as it stands. *)
Theorem unescape_without_backslash v : has_char BS v = false → unescape v = v.
Proof.
  intros Hv. unfold unescape, esc_q, esc_esc_q, esc_n, esc_esc_n.
  by do 4 rewrite (replace_absent BS _ _ v) by done.
Qed.

Lemma unescape_without_backslash_witness : unescape "Plans the work." = "Plans the work.".
Proof. exact (unescape_without_backslash "Plans the work." eq_refl). Defined.

(** ** The frontmatter expression *)

Lemma after_spec p s r : Re.after p s = Some r ↔ s = p +:+ r.
Proof.
  revert s. induction p as [|a p IH]; intros s; simpl.
  - rewrite str_app_nil_l. split; [by intros [= ->]|by intros ->].
  - destruct s as [|c s]; [by rewrite str_app_cons|].
    rewrite str_app_cons. destruct (Ascii.eqb_spec c a) as [->|Hne].
    + rewrite IH. split; [by intros ->|by intros [= ->]].
    + split; [done|]. intros [= ? ?]. done.
Qed.

Lemma fm_body_spec s b :
  Re.fm_body s = Some b →
  ∃ rest, s = b +:+ rest ∧ Str.last_char b = Some NL ∧ Re.fm_close rest = true
          ∧ ∀ b1 b2, b = b1 +:+ b2 → b2 ≠ EmptyString →
                     Str.last_char b1 = Some NL → Re.fm_close (b2 +:+ rest) = false.
Proof.
  revert b. induction s as [|c s IH]; intros b; [done|]. cbn [Re.fm_body].
  destruct (Ascii.eqb c NL && Re.fm_close s) eqn:E.
  - intros [= <-]. apply andb_true_iff in E as [->%Ascii.eqb_eq Hs].
    exists s. split_and!; [done..|].
    intros [|c1 [|??]] b2 Hb Hb2 Hl; try done.
    rewrite str_app_cons, str_app_nil_l in Hb. injection Hb as _ <-. done.
  - destruct (Re.fm_body s) as [b'|] eqn:Eb; [|done]. intros [= <-].
    destruct (IH b' eq_refl) as (rest & -> & Hl & Hc & Hmin).
    exists rest. split_and!; [done| |done|].
    + simpl. destruct b'; [done|exact Hl].
    + intros [|c1 b1] b2 Hb Hb2 Hl1; [done|].
      rewrite str_app_cons in Hb. simplify_eq.
      destruct b1 as [|c2 b1].
      * simpl in Hl1. simplify_eq. rewrite str_app_nil_l in *.
        by rewrite Ascii.eqb_refl in E.
      * apply (Hmin (String c2 b1) b2); [done|done|exact Hl1].
Qed.

Lemma fm_open_spec s b :
  Re.fm_open s = Some b →
  ∃ ws s', s = ws +:+ s' ∧ all_space ws ∧ Str.last_char ws = Some NL
           ∧ Re.fm_body s' = Some b.
Proof.
  induction s as [|c s IH]; [done|]. cbn [Re.fm_open].
  destruct (isspace c) eqn:Hc; [|done].
  destruct (Re.fm_open s) as [b'|] eqn:Eo.
  - intros [= <-]. destruct (IH eq_refl) as (ws & s' & -> & Hws & Hl & Hb).
    exists (String c ws), s'. split_and!; [done| | |done].
    + simpl. rewrite Hc. done.
    + simpl. destruct ws; [done|exact Hl].
  - destruct (Ascii.eqb_spec c NL) as [->|]; [|done]. intros Hb.
    exists (String NL EmptyString), s. done.
Qed.

(** X6: when [FRONTMATTER_RE] matches a text in ASCII, the text starts with
    the delimiter, white space that ends a line, and the block; the block
    ends with a newline and is followed by a closing delimiter line, and it
    is the shortest such block: no line of the block behind its first one
    starts a closing delimiter line.  The first line of the block belongs
    to it whatever it holds, since the block has to hold a newline. *)
Theorem frontmatter_block_shape text body :
  Str.isascii text = true →
  Re.FRONTMATTER_RE text = Some body →
  ∃ ws rest,
    text = "---" +:+ ws +:+ body +:+ rest
    ∧ all_space ws ∧ Str.last_char ws = Some NL
    ∧ Str.last_char body = Some NL
    ∧ Re.fm_close rest = true
    ∧ ∀ b1 b2, body = b1 +:+ b2 → b2 ≠ EmptyString →
               Str.last_char b1 = Some NL → Re.fm_close (b2 +:+ rest) = false.
Proof.
  intros _.
  unfold Re.FRONTMATTER_RE. destruct (Re.after "---" text) as [r|] eqn:E; [|done].
  apply after_spec in E as ->.
  intros (ws & s' & -> & Hws & Hl & (rest & -> & ? & ? & ?)%fm_body_spec)%fm_open_spec.
  by exists ws, rest.
Qed.

Lemma frontmatter_block_shape_witness :
  ∃ ws rest,
    Str.join newline ["---  "; "---"; "name: x"; "---"; "Body"]
    = "---" +:+ ws +:+ unlines ["---"; "name: x"] +:+ rest
    ∧ all_space ws ∧ Re.fm_close rest = true.
Proof.
  destruct (frontmatter_block_shape
              (Str.join newline ["---  "; "---"; "name: x"; "---"; "Body"])
              (unlines ["---"; "name: x"]) eq_refl eq_refl)
    as (ws & rest & H1 & H2 & _ & _ & H3 & _).
  by exists ws, rest.
Defined.

Lemma fm_open_nonspace c s : isspace c = false → Re.fm_open (String c s) = None.
Proof. intros H. simpl. by rewrite H. Qed.

Lemma fm_body_line l s :
  has_char NL l = false →
  Re.fm_body (l +:+ String NL s)
  = if Re.fm_close s then Some (l +:+ newline)
    else (λ b, l +:+ String NL b) <$> Re.fm_body s.
Proof.
  intros Hl. induction l as [|c l IH].
  - rewrite !str_app_nil_l. cbn [Re.fm_body]. rewrite Ascii.eqb_refl. simpl.
    by destruct (Re.fm_close s).
  - simpl in Hl. apply orb_false_iff in Hl as [Hc Hl].
    rewrite !str_app_cons. cbn [Re.fm_body]. rewrite Hc. simpl.
    rewrite IH by done. destruct (Re.fm_close s); [done|].
    by destruct (Re.fm_body s).
Qed.

Lemma after_app_sep p l d s :
  has_char d p = false → Re.after p l = None →
  Re.after p (l +:+ String d s) = None.
Proof.
  revert l. induction p as [|a p IH]; intros l Hd Hl; [done|].
  simpl in Hd. apply orb_false_iff in Hd as [Ha Hd].
  destruct l as [|c l].
  - rewrite str_app_nil_l. cbn [Re.after]. rewrite Ascii.eqb_sym, Ha. done.
  - rewrite str_app_cons. cbn [Re.after] in *.
    destruct (Ascii.eqb c a); [by apply IH|done].
Qed.

Lemma fm_close_line l s :
  Re.after "---" l = None → Re.fm_close (l +:+ String NL s) = false.
Proof. intros Ha. unfold Re.fm_close. by rewrite after_app_sep. Qed.

Lemma fm_body_unlines lines rest :
  lines ≠ [] →
  Forall (λ l, has_char NL l = false ∧ Re.after "---" l = None) lines →
  Re.fm_close rest = true →
  Re.fm_body (unlines lines +:+ rest) = Some (unlines lines).
Proof.
  intros Hne Hlines Hrest. induction lines as [|l lines IH]; [done|].
  inv Hlines. destruct H1 as [Hl Ha]. simpl.
  rewrite str_app_assoc, str_app_cons, fm_body_line by done.
  destruct lines as [|l2 lines].
  - simpl. rewrite str_app_nil_l, Hrest. done.
  - rewrite IH by done. inv H2. destruct H1 as [Hl2 Ha2].
    simpl unlines at 1. rewrite str_app_assoc, str_app_cons, fm_close_line by done.
    done.
Qed.

(** X7: a block in the usual layout is found whole: behind a first line
    [---], lines that do not begin with [---], the first of which starts
    with a character of ASCII that is no white space, and a closing line
    [---]. *)
Theorem frontmatter_block_found c l lines rest :
  isascii c = true → isspace c = false →
  Forall (λ l, has_char NL l = false ∧ Re.after "---" l = None) (String c l :: lines) →
  Re.FRONTMATTER_RE
    ("---" +:+ newline +:+ unlines (String c l :: lines) +:+ "---" +:+ newline +:+ rest)
  = Some (unlines (String c l :: lines)).
Proof.
  intros _ Hc Hlines. unfold Re.FRONTMATTER_RE.
  assert (Re.after "---" ("---" +:+ newline +:+ unlines (String c l :: lines)
                          +:+ "---" +:+ newline +:+ rest)
          = Some (newline +:+ unlines (String c l :: lines)
                  +:+ "---" +:+ newline +:+ rest)) as -> by by apply after_spec.
  rewrite newline_app. cbn [Re.fm_open].
  replace (isspace NL) with true by done.
  assert (Re.fm_open (unlines (String c l :: lines) +:+ "---" +:+ newline +:+ rest) = None)
    as ->.
  { simpl unlines. rewrite !str_app_cons. by apply fm_open_nonspace. }
  rewrite Ascii.eqb_refl. apply fm_body_unlines; [done..|].
  unfold Re.fm_close.
  assert (Re.after "---" ("---" +:+ newline +:+ rest) = Some (newline +:+ rest)) as ->
    by by apply after_spec.
  rewrite newline_app. cbn [Re.ws_then_nl]. by rewrite Ascii.eqb_refl, orb_true_r.
Qed.

Lemma frontmatter_block_found_witness :
  Re.FRONTMATTER_RE
    ("---" +:+ newline +:+ unlines ["name: x"; "description: |"; "  Does x."]
     +:+ "---" +:+ newline +:+ "Body")
  = Some (unlines ["name: x"; "description: |"; "  Does x."]).
Proof.
  apply (frontmatter_block_found "n" "ame: x" ["description: |"; "  Does x."] "Body").
  - reflexivity.
  - reflexivity.
  - by repeat constructor.
Defined.


(** ** The shape of a description *)

Lemma words_pieces_word w : no_space w → Str.words_pieces w = (w, []).
Proof.
  induction w as [|c w IH]; [done|]. simpl.
  intros [Hc Hw]%andb_prop_elim. rewrite IH by done.
  by destruct (isspace c).
Qed.

Lemma words_pieces_app_word w s :
  no_space w →
  Str.words_pieces (w +:+ String " " s)
  = (w, Str.cons_word (Str.words_pieces s).1 (Str.words_pieces s).2).
Proof.
  induction w as [|c w IH]; intros Hw.
  - rewrite str_app_nil_l. simpl. by destruct (Str.words_pieces s).
  - simpl in Hw. apply andb_prop_elim in Hw as [Hc Hw].
    rewrite str_app_cons. simpl. rewrite IH by done. by destruct (isspace c).
Qed.

Lemma join_cons sep x l :
  l ≠ [] → Str.join sep (x :: l) = x +:+ sep +:+ Str.join sep l.
Proof. intros H. destruct l; [done|]. reflexivity. Qed.

Lemma words_pieces_join w ws :
  Forall is_word (w :: ws) → Str.words_pieces (Str.join " " (w :: ws)) = (w, ws).
Proof.
  revert w. induction ws as [|w2 ws IH]; intros w Hws; inv Hws.
  - simpl. apply words_pieces_word. by destruct H1.
  - rewrite join_cons by done.
    change (w +:+ " " +:+ ?x) with (w +:+ String " " x).
    rewrite words_pieces_app_word by by destruct H1.
    rewrite IH by done. simpl. inv H2. destruct H3 as [Hne _].
    unfold Str.cons_word. by destruct w2.
Qed.

(** Splitting undoes joining with single spaces. *)
Lemma split_ws_join ws : Forall is_word ws → Str.split_ws (Str.join " " ws) = ws.
Proof.
  intros Hws. destruct ws as [|w ws]; [done|]. unfold Str.split_ws.
  rewrite words_pieces_join by done. inv Hws. destruct H1 as [Hne _].
  unfold Str.cons_word. by destruct w.
Qed.

Lemma join_snoc_app ws w s :
  Str.join " " (ws ++ [w]) +:+ s = Str.join " " (ws ++ [w +:+ s]).
Proof.
  induction ws as [|x ws IH]; [done|]. cbn [app].
  rewrite !join_cons by (by destruct ws). by rewrite !str_app_assoc, IH.
Qed.

Lemma no_space_app s t : no_space s → no_space t → no_space (s +:+ t).
Proof.
  induction s as [|c s IH]; [done|]. intros Hs Ht. simpl in Hs.
  apply andb_prop_elim in Hs as [Hc Hs]. rewrite str_app_cons. simpl.
  apply andb_prop_intro. auto.
Qed.

Lemma endswith_app suf s : Str.endswith suf (s +:+ suf) = true.
Proof.
  induction s as [|c s IH].
  - rewrite str_app_nil_l. destruct suf; simpl; by rewrite ?String.eqb_refl, ?Ascii.eqb_refl.
  - rewrite str_app_cons. simpl. by rewrite IH, orb_true_r.
Qed.

Lemma no_space_no_nl w : no_space w → has_char NL w = false.
Proof.
  induction w as [|c w IH]; [done|]. simpl. intros [Hc Hw]%andb_prop_elim.
  rewrite IH by done. rewrite orb_false_r.
  destruct (Ascii.eqb_spec c NL) as [->|]; done.
Qed.

Lemma join_words_no_nl ws : Forall is_word ws → has_char NL (Str.join " " ws) = false.
Proof.
  induction ws as [|w ws IH]; [done|]. intros Hws. inv Hws.
  destruct H1 as [_ Hw]. destruct (decide (ws = [])) as [->|Hne].
  - by apply no_space_no_nl.
  - rewrite join_cons by done.
    rewrite !has_char_app, IH by done. by rewrite no_space_no_nl.
Qed.


Lemma split_ws_space s : all_space s → Str.split_ws s = [].
Proof.
  intros Hs. rewrite <-(str_app_nil_l s), split_ws_app_space by done. done.
Qed.

(** X9: a description of white space alone, and so a missing one, gives an
    empty cell: no full stop is added to nothing. *)
Theorem blank_description_is_empty raw :
  all_space raw → extract_catalog_description raw = EmptyString.
Proof.
  intros Hraw. unfold extract_catalog_description.
  destruct (Re.STOP_PATTERNS raw) as [k|].
  - by rewrite split_ws_space by by apply all_space_take.
  - by rewrite split_ws_space.
Qed.

Lemma blank_description_witness :
  extract_catalog_description (" " +:+ newline +:+ "  ") = EmptyString.
Proof. exact (blank_description_is_empty (" " +:+ newline +:+ "  ") I). Defined.

(** ** Descriptions of one line *)

Lemma stop_search_no_nl s i :
  has_char NL s = false → Re.stop_search_from false i s = None.
Proof.
  revert i. induction s as [|c s IH]; intros i; [done|]. simpl.
  intros [-> Hs]%orb_false_iff. by apply IH.
Qed.

Lemma lower_space c : isspace c = true → lower c = c.
Proof. by destruct c as [[] [] [] [] [] [] [] []]. Qed.

Lemma trigger_starts_nonspace s : starts_with_trigger s → Str.lstrip s = s.
Proof.
  intros (p & w & rest & -> & Hw & Hp).
  assert (p ∈ word_phrases ++ colon_phrases) as Hp'
    by (apply elem_of_app; destruct Hp as [[? _]|?]; auto).
  clear Hp. destruct w as [|c w].
  { unfold word_phrases, colon_phrases in Hp'. simpl in Hp'.
    repeat (apply elem_of_cons in Hp' as [->|Hp']; [done|]). by apply elem_of_nil in Hp'. }
  rewrite str_app_cons. apply lstrip_nonspace.
  destruct (isspace c) eqn:Hc; [|done]. simpl in Hw. rewrite (lower_space c Hc) in Hw.
  unfold word_phrases, colon_phrases in Hp'. simpl in Hp'.
  repeat (apply elem_of_cons in Hp' as [->|Hp']; [by simplify_eq/=|]).
  by apply elem_of_nil in Hp'.
Qed.

Lemma stop_here_lstrip s :
  Re.stop_here s = true ↔ starts_with_trigger (Str.lstrip s).
Proof.
  rewrite stop_here_spec. split.
  - intros (ws & rest & -> & Hws & Hr).
    by rewrite lstrip_app_space, trigger_starts_nonspace.
  - intros Hs. destruct (lstrip_spec s) as (ws & Heq & Hws & _).
    by exists ws, (Str.lstrip s).
Qed.

Lemma begins_with_trigger_lstrip raw :
  (∃ ws rest, raw = ws +:+ rest ∧ all_space ws ∧ starts_with_trigger rest)
  ↔ starts_with_trigger (Str.lstrip raw).
Proof.
  split.
  - intros (ws & rest & -> & Hws & Ht).
    by rewrite lstrip_app_space, trigger_starts_nonspace.
  - intros Ht. destruct (lstrip_spec raw) as (ws & Hraw & Hws & _).
    by exists ws, (Str.lstrip raw).
Qed.

(** X10: a description in ASCII that begins, white space apart, with a
    trigger phrase gives an empty cell; any other description of one line
    is kept whole, wherever else in the line a trigger phrase stands: its
    runs of white space become single spaces, and a full stop is added
    unless it ends in one. *)
Theorem single_line_description raw :
  Str.isascii raw = true →
  let begins_with_trigger :=
    ∃ ws rest, raw = ws +:+ rest ∧ all_space ws ∧ starts_with_trigger rest in
  (begins_with_trigger → extract_catalog_description raw = EmptyString)
  ∧ (has_char NL raw = false → ¬ begins_with_trigger →
     extract_catalog_description raw
     = with_full_stop (Str.join " " (Str.split_ws raw))).
Proof.
  intros _ begins_with_trigger. subst begins_with_trigger.
  rewrite begins_with_trigger_lstrip. split.
  - intros Ht%stop_here_lstrip. unfold extract_catalog_description, Re.STOP_PATTERNS.
    assert (Re.stop_search_from true 0 raw = Some 0) as ->; [|by destruct raw].
    destruct raw; cbn [Re.stop_search_from]; by rewrite Ht.
  - intros Hnl Ht. unfold extract_catalog_description, Re.STOP_PATTERNS.
    rewrite full_stop_added.
    assert (Re.stop_here raw = false) as Hs.
    { destruct (Re.stop_here raw) eqn:E; [|done]. by apply stop_here_lstrip in E. }
    assert (Re.stop_search_from true 0 raw = None) as ->.
    { destruct raw as [|c raw]; cbn [Re.stop_search_from]; rewrite Hs; [done|].
      simpl in Hnl. apply orb_false_iff in Hnl as [-> Hnl]. by apply stop_search_no_nl. }
    by rewrite strip_join_words by apply split_ws_words.
Qed.

Lemma single_line_description_witness :
  extract_catalog_description "Reviews  code. Use when a change is ready"
  = "Reviews code. Use when a change is ready.".
Proof.
  refine (proj2 (single_line_description "Reviews  code. Use when a change is ready"
                   eq_refl) eq_refl _).
  intros Ht%begins_with_trigger_lstrip%stop_here_lstrip. discriminate Ht.
Defined.


(** ** Every file is accounted for *)

Lemma total_skills_insert (m : gmap string (list entry)) cat l :
  total_skills (<[cat := l]> m) = length l + total_skills (delete cat m).
Proof.
  unfold total_skills. rewrite <-insert_delete_eq.
  rewrite map_fold_insert_L; [done| |by rewrite lookup_delete_eq].
  intros. lia.
Qed.

Lemma total_skills_append (m : gmap string (list entry)) cat e :
  total_skills (<[cat := default [] (m !! cat) ++ [e]]> m) = S (total_skills m).
Proof.
  rewrite total_skills_insert, length_app. simpl.
  destruct (m !! cat) as [l|] eqn:E; simpl.
  - rewrite (total_skills_delete m cat l E). lia.
  - by rewrite delete_id.
Qed.

(** X11: the rules scanner and the skills scanner account for every file
    they are given: a file becomes one entry or one warning, so the number
    of entries and the number of warnings add up to the number of files. *)
Theorem scanned_files_accounted REPO_ROOT files :
  length (rules_loop REPO_ROOT files).1 + length (rules_loop REPO_ROOT files).2
  = length files
  ∧ total_skills (skills_loop REPO_ROOT files).1
    + length (skills_loop REPO_ROOT files).2 = length files.
Proof.
  split.
  - induction files as [|f files IH] using rev_ind; [done|].
    rewrite rules_loop_app. simpl. unfold rules_loop at 2 4. simpl.
    unfold rules_step. destruct (checked_frontmatter f) as [[n fm]|]; simpl;
      rewrite !length_app; simpl; lia.
  - induction files as [|f files IH] using rev_ind; [done|].
    unfold skills_loop in *. rewrite fold_left_app. simpl.
    destruct (fold_left _ files _) as [m ws]. unfold skills_step. simpl in *.
    destruct (checked_frontmatter f) as [[n fm]|]; simpl.
    + rewrite total_skills_append, length_app. simpl. lia.
    + rewrite !length_app. simpl. lia.
Qed.

(** ** The grouping of skills *)

(** X12: [discover_skills] files every skill under the category of its
    path and nowhere else: the entries of a category are those of the
    files with a valid block whose path gives that category, and no
    category is kept with an empty list. *)
Theorem skills_grouped_by_category REPO_ROOT files cat :
  (∀ e, e ∈ default [] ((skills_loop REPO_ROOT files).1 !! cat) ↔
        ∃ f n fm, f ∈ files ∧ checked_frontmatter f = Some (n, fm)
                  ∧ _skill_category f = cat
                  ∧ e = Entry n (catalog_description fm) None (rel_link f))
  ∧ (skills_loop REPO_ROOT files).1 !! cat ≠ Some [].
Proof.
  induction files as [|f files [IH1 IH2]] using rev_ind.
  - split; [|done]. intros e. unfold skills_loop. simpl. rewrite lookup_empty. simpl.
    split; [by intros ?%elem_of_nil|]. by intros (? & ? & ? & ?%elem_of_nil & _).
  - unfold skills_loop in *. rewrite fold_left_app. simpl.
    destruct (fold_left _ files _) as [m ws]. unfold skills_step. simpl in *.
    destruct (checked_frontmatter f) as [[n fm]|] eqn:Ef; simpl.
    + destruct (decide (_skill_category f = cat)) as [Hc|Hc].
      * rewrite Hc, lookup_insert_eq. simpl. split.
        -- intros e. rewrite elem_of_app, IH1, list_elem_of_singleton. split.
           ++ intros [(f' & n' & fm' & ? & ? & ? & ?) | ->].
              ** exists f', n', fm'. rewrite elem_of_app. auto.
              ** exists f, n, fm. rewrite elem_of_app, list_elem_of_singleton. auto.
           ++ intros (f' & n' & fm' & [?|Hin]%elem_of_app & Hf' & ? & ->).
              ** left. by exists f', n', fm'.
              ** right. apply list_elem_of_singleton in Hin as ->. by simplify_eq.
        -- by destruct (default [] (m !! cat)).
      * rewrite lookup_insert_ne by done. split; [|done].
        intros e. rewrite IH1. split.
        -- intros (f' & n' & fm' & ? & ? & ? & ?). exists f', n', fm'.
           rewrite elem_of_app. auto.
        -- intros (f' & n' & fm' & [?|Hin]%elem_of_app & Hf' & ? & ->).
           ++ by exists f', n', fm'.
           ++ by apply list_elem_of_singleton in Hin as ->.
    + split; [|done]. intros e. rewrite IH1. split.
      * intros (f' & n' & fm' & ? & ? & ? & ?). exists f', n', fm'.
        rewrite elem_of_app. auto.
      * intros (f' & n' & fm' & [?|Hin]%elem_of_app & Hf' & ? & ->).
        -- by exists f', n', fm'.
        -- apply list_elem_of_singleton in Hin as ->. congruence.
Qed.

(** ** Paths *)

Lemma join_snoc sep l x :
  l ≠ [] → Str.join sep (l ++ [x]) = Str.join sep l +:+ sep +:+ x.
Proof.
  induction l as [|y l IH]; [done|]. intros _. cbn [app].
  destruct (decide (l = [])) as [->|Hne]; [done|].
  rewrite !join_cons by (done || by destruct l). rewrite IH by done.
  by rewrite !str_app_assoc.
Qed.

(** X13: the category of a skill is made of the directories between
    [skills] and the directory of the skill.  A skill that lies directly
    below [skills] has the empty category, which is none of the display
    order, so it is counted and not listed. *)
Theorem skill_category_of_layout cats dir t :
  _skill_category (File ("skills" :: cats ++ [dir; "SKILL.md"]) t) = Str.join "/" cats
  ∧ _skill_category (File ["skills"; dir; "SKILL.md"] t) ∉ SKILL_CATEGORY_ORDER.
Proof.
  split.
  - unfold _skill_category. simpl. rewrite length_app. simpl.
    replace (length cats + 2 - 2) with (length cats) by lia.
    by rewrite list.take_app_length.
  - unfold _skill_category, SKILL_CATEGORY_ORDER. simpl.
    rewrite !not_elem_of_cons. split_and!; [done..|apply not_elem_of_nil].
Qed.

Lemma rsplit_dot_none s : has_char "." s = false → rsplit_dot s = None.
Proof.
  induction s as [|c s IH]; [done|]. simpl. intros [Hc Hs]%orb_false_iff.
  by rewrite IH, Hc.
Qed.

Lemma rsplit_dot_last a b :
  has_char "." b = false → rsplit_dot (a +:+ String "." b) = Some (a, b).
Proof.
  intros Hb. induction a as [|c a IH].
  - rewrite str_app_nil_l. simpl. by rewrite rsplit_dot_none.
  - rewrite str_app_cons. simpl. by rewrite IH.
Qed.

(** X14: for a file called [base.md] the agents scanner reads [base]: the
    file is left out when [base] ends in [-reference], whatever its block
    says. *)
Theorem reference_files_left_out REPO_ROOT pre f post base :
  f_name f = base +:+ ".md" → base ≠ EmptyString →
  Str.endswith "-reference" base = true →
  stem f = base
  ∧ agents_loop REPO_ROOT (pre ++ f :: post)
    = agents_loop REPO_ROOT pre ++ agents_loop REPO_ROOT post.
Proof.
  intros Hn Hb He.
  assert (stem f = base) as Hs.
  { unfold stem. rewrite Hn. change (base +:+ ".md") with (base +:+ String "." "md").
    rewrite rsplit_dot_last by done. by destruct base. }
  split; [done|]. rewrite agents_loop_app. f_equal. unfold agents_loop. simpl.
  rewrite agents_fold. unfold agents_step. rewrite Hs, He. simpl.
  by case_bool_decide.
Qed.

Lemma reference_files_witness :
  agents_loop ["srv"; "repo"]
    [File ["agents"; "review"; "api-reference.md"]
       (Str.join newline ["---"; "name: api"; "---"; "Body"])] = [].
Proof.
  exact (proj2 (reference_files_left_out ["srv"; "repo"] []
           (File ["agents"; "review"; "api-reference.md"]
              (Str.join newline ["---"; "name: api"; "---"; "Body"])) []
           "api-reference" eq_refl ltac:(discriminate) eq_refl)).
Defined.


(** ** The rows of the document *)

Lemma skills_fold_row m cats cat l e :
  cat ∈ cats → m !! cat = Some l → e ∈ l →
  row e ∈ fold_left (skills_subsection m) cats [].
Proof.
  induction cats as [|c cats IH]; [by intros ?%elem_of_nil|].
  intros Hin Hl He. simpl. rewrite skills_fold_prefix, elem_of_app.
  apply elem_of_cons in Hin as [<-|Hin]; [|right; by apply IH].
  left. unfold skills_subsection. rewrite Hl. simpl.
  rewrite bool_decide_eq_false_2 by (intros ->; by apply elem_of_nil in He).
  do 4 apply list_elem_of_further. apply elem_of_app. left.
  by apply list_elem_of_fmap_2.
Qed.



(** ** The end of the document *)

Lemma join_snoc_empty l :
  l ≠ [] → Str.join newline (l ++ [EmptyString]) = Str.join newline l +:+ newline.
Proof. intros Hl. by rewrite join_snoc, str_app_nil_r by done. Qed.

(** X16: the list of lines ends with an empty line in every case, so the
    text of the catalog ends with a newline. *)
Theorem catalog_ends_with_newline REPO_ROOT tree :
  Str.last_char (render_catalog REPO_ROOT tree).1 = Some NL.
Proof.
  unfold render_catalog.
  destruct (discover_rules _ _) as [rules err1], (discover_skills _ _) as [m err2].
  cbn [fst].
  assert (∃ l, l ≠ []
               ∧ render_lines rules m (discover_agents REPO_ROOT tree)
                   (discover_custom_skills tree) (discover_custom_agents tree)
                 = l ++ [EmptyString]) as (l & Hl & ->).
  { unfold render_lines.
    repeat case_bool_decide; cbn [negb orb];
      try match goal with
          | |- context [ ?x ++ [?p; EmptyString] ] =>
              change (x ++ [p; EmptyString]) with (x ++ [p] ++ [EmptyString])
          end;
      rewrite ?app_assoc; eexists; (split; [|reflexivity]);
      intros Hnil; apply (f_equal length) in Hnil;
      rewrite !length_app in Hnil; simpl in Hnil; lia. }
  rewrite join_snoc_empty by done. apply last_char_app_char.
Qed.


(** ** No carriage return

    A text that was read from a file holds no carriage return, and nothing
    the script does to it brings one in: the catalog holds one only when a
    path does. *)

Lemma universal_newlines_no_cr s : has_char CR (universal_newlines s) = false.
Proof.
  induction s as [|c s IH]; [done|]. cbn [universal_newlines].
  destruct (Ascii.eqb_spec c CR) as [->|Hne].
  - destruct s as [|c' s]; [done|]. destruct (Ascii.eqb c' NL); [done|].
    cbn [has_char]. by rewrite IH.
  - cbn [has_char]. rewrite IH, orb_false_r. by apply Ascii.eqb_neq.
Qed.

Lemma no_cr_take n s : has_char CR s = false → has_char CR (Str.take n s) = false.
Proof.
  revert n. induction s as [|c s IH]; intros [|n]; try done. simpl.
  intros [-> Hs]%orb_false_iff. by rewrite IH.
Qed.

Lemma no_cr_lstrip s : has_char CR s = false → has_char CR (Str.lstrip s) = false.
Proof.
  destruct (lstrip_spec s) as (ws & Hs & _). rewrite Hs at 1. rewrite has_char_app.
  by intros [_ ?]%orb_false_iff.
Qed.

Lemma no_cr_rstrip s : has_char CR s = false → has_char CR (Str.rstrip s) = false.
Proof.
  destruct (rstrip_spec s) as (ws & Hs & _). rewrite Hs at 1. rewrite has_char_app.
  by intros [? _]%orb_false_iff.
Qed.

Lemma no_cr_strip s : has_char CR s = false → has_char CR (Str.strip s) = false.
Proof. intros. by apply no_cr_rstrip, no_cr_lstrip. Qed.

Lemma no_cr_join sep l :
  has_char CR sep = false → Forall (λ x, has_char CR x = false) l →
  has_char CR (Str.join sep l) = false.
Proof.
  intros Hsep. induction 1 as [|x l Hx Hl IH]; [done|]. cbn [Str.join].
  case_decide; [done|]. by rewrite !has_char_app, Hx, Hsep, IH.
Qed.

Lemma no_cr_split sep s :
  has_char CR s = false → Forall (λ x, has_char CR x = false) (Str.split sep s).
Proof.
  unfold Str.split.
  assert (has_char CR s = false →
          has_char CR (Str.split_pieces sep s).1 = false
          ∧ Forall (λ x, has_char CR x = false) (Str.split_pieces sep s).2) as H.
  { induction s as [|c s IH]; [done|]. simpl. intros [Hc Hs]%orb_false_iff.
    destruct (IH Hs) as [Hh Ht]. destruct (Str.split_pieces sep s) as [h t].
    destruct (Ascii.eqb c sep); simpl in *; [by split; [|constructor]|].
    by rewrite Hc, Hh. }
  intros Hs. destruct (H Hs) as [Hh Ht]. destruct (Str.split_pieces sep s).
  by constructor.
Qed.

Lemma no_cr_split_ws s :
  has_char CR s = false → Forall (λ x, has_char CR x = false) (Str.split_ws s).
Proof.
  unfold Str.split_ws.
  assert (∀ w ws, has_char CR w = false → Forall (λ x, has_char CR x = false) ws →
                  Forall (λ x, has_char CR x = false) (Str.cons_word w ws)) as Hcons.
  { intros w ws Hw Hws. unfold Str.cons_word. destruct (Str.is_empty w); [done|].
    by constructor. }
  assert (has_char CR s = false →
          has_char CR (Str.words_pieces s).1 = false
          ∧ Forall (λ x, has_char CR x = false) (Str.words_pieces s).2) as H.
  { induction s as [|c s IH]; [done|]. simpl. intros [Hc Hs]%orb_false_iff.
    destruct (IH Hs) as [Hh Ht]. destruct (Str.words_pieces s) as [h t].
    destruct (isspace c); simpl in *; [split; [done|by apply Hcons]|].
    by rewrite Hc, Hh. }
  intros Hs. destruct (H Hs) as [Hh Ht]. destruct (Str.words_pieces s).
  by apply Hcons.
Qed.

Lemma no_cr_replace old new s :
  has_char CR new = false → has_char CR s = false →
  has_char CR (Str.replace old new s) = false.
Proof.
  intros Hnew. unfold Str.replace. generalize 0.
  induction s as [|c s IH]; intros skip; [done|]. cbn [Str.replace_go has_char].
  intros [Hc Hs]%orb_false_iff. destruct skip as [|k]; [|by apply IH].
  destruct (String.prefix old (String c s)).
  - by rewrite has_char_app, Hnew, IH.
  - cbn [has_char]. by rewrite Hc, IH.
Qed.

Lemma no_cr_strip_ends s :
  has_char CR s = false → has_char CR (Str.strip_ends s) = false.
Proof.
  destruct s as [|c s]; [done|]. simpl. intros [_ Hs]%orb_false_iff.
  induction s as [|c' s IH]; [done|]. simpl in *.
  apply orb_false_iff in Hs as [Hc Hs].
  destruct (Str.is_empty s); [done|]. simpl. by rewrite Hc, IH.
Qed.

Lemma no_cr_unescape s : has_char CR s = false → has_char CR (unescape s) = false.
Proof. intros. unfold unescape. by repeat apply no_cr_replace. Qed.

Lemma no_cr_key_line line k v :
  has_char CR line = false → Re.YAML_KEY_RE line = Some (k, v) →
  has_char CR k = false ∧ has_char CR v = false.
Proof.
  destruct line as [|c rest]; [done|]. unfold Re.YAML_KEY_RE.
  destruct (isword c); [|done]. simpl. intros [Hc Hrest]%orb_false_iff.
  destruct (span_spec Re.iskeychar rest) as (Hs & _).
  destruct (Str.span Re.iskeychar rest) as [k' r1]. simpl in Hs.
  rewrite Hs, has_char_app in Hrest. apply orb_false_iff in Hrest as [Hk Hr1].
  apply no_cr_lstrip in Hr1.
  destruct (Str.lstrip r1) as [|c' r2]; [done|].
  destruct (Ascii.eqb_spec c' ":") as [->|Hne].
  2: { intros H. exfalso. revert H.
       destruct c' as [[] [] [] [] [] [] [] []]; done. }
  simpl in Hr1. apply no_cr_lstrip in Hr1.
  destruct (span_spec Re.notnl (Str.lstrip r2)) as (Hs2 & _).
  rewrite Hs2, has_char_app in Hr1. apply orb_false_iff in Hr1 as [Hv _].
  intros [= <- <-]. simpl. by rewrite Hc, Hk.
Qed.

Lemma no_cr_frontmatter text body :
  has_char CR text = false → Re.FRONTMATTER_RE text = Some body →
  has_char CR body = false.
Proof.
  unfold Re.FRONTMATTER_RE. destruct (Re.after "---" text) as [r|] eqn:E; [|done].
  apply after_spec in E as ->.
  intros Ht (ws & s' & -> & _ & _ & (rest & -> & _)%fm_body_spec)%fm_open_spec.
  rewrite !has_char_app in Ht.
  apply orb_false_iff in Ht as [_ Ht]. apply orb_false_iff in Ht as [_ Ht].
  by apply orb_false_iff in Ht as [Ht _].
Qed.

Lemma no_cr_flush lines :
  Forall (λ x, has_char CR x = false) lines → has_char CR (_flush lines) = false.
Proof. intros. by apply no_cr_strip, no_cr_join. Qed.

Lemma no_cr_flush_key st :
  map_Forall (λ _ v, has_char CR v = false) (result st) →
  Forall (λ x, has_char CR x = false) (current_lines st) →
  map_Forall (λ _ v, has_char CR v = false) (flush_key st).
Proof.
  intros Hr Hl. unfold flush_key. destruct (current_key st); [|done].
  apply map_Forall_insert_2; [by apply no_cr_flush|done].
Qed.

Lemma no_cr_parse_line st line :
  has_char CR line = false →
  map_Forall (λ _ v, has_char CR v = false) (result st) →
  Forall (λ x, has_char CR x = false) (current_lines st) →
  map_Forall (λ _ v, has_char CR v = false) (result (parse_line st line))
  ∧ Forall (λ x, has_char CR x = false) (current_lines (parse_line st line)).
Proof.
  intros Hline Hr Hl.
  assert (map_Forall (λ _ v, has_char CR v = false) (result (continuation st line))
          ∧ Forall (λ x, has_char CR x = false) (current_lines (continuation st line)))
    as Hcont.
  { unfold continuation. destruct (_ && _); [|done]. simpl. split; [done|].
    apply Forall_app. split; [done|]. constructor; [by apply no_cr_strip|done]. }
  destruct (Re.YAML_KEY_RE line) as [[k v]|] eqn:E.
  - destruct (no_cr_key_line _ _ _ Hline E) as [_ Hv].
    rewrite (parse_line_key _ _ _ _ E).
    destruct (String.eqb _ _); simpl; (split; [by apply no_cr_flush_key|]); [done|].
    constructor; [|done].
    destruct (is_quoted _); [by apply no_cr_unescape, no_cr_strip_ends, no_cr_strip|].
    by apply no_cr_strip.
  - by rewrite parse_line_other.
Qed.

Lemma no_cr_parse raw :
  has_char CR raw = false →
  map_Forall (λ _ v, has_char CR v = false) (_parse_yaml_flat raw).
Proof.
  intros Hraw. unfold _parse_yaml_flat, parse_lines.
  pose proof (no_cr_split NL raw Hraw) as Hlines.
  assert (∀ st,
            map_Forall (λ _ v, has_char CR v = false) (result st) →
            Forall (λ x, has_char CR x = false) (current_lines st) →
            map_Forall (λ _ v, has_char CR v = false)
              (flush_key (fold_left parse_line (Str.split NL raw) st))) as H.
  { induction Hlines as [|line lines Hline _ IH]; intros st Hr Hl.
    - by apply no_cr_flush_key.
    - simpl. destruct (no_cr_parse_line st line Hline Hr Hl). by apply IH. }
  apply H; [apply map_Forall_empty|done].
Qed.

Lemma no_cr_checked_frontmatter f n fm :
  checked_frontmatter f = Some (n, fm) →
  has_char CR n = false ∧ map_Forall (λ _ v, has_char CR v = false) fm.
Proof.
  unfold checked_frontmatter, parse_frontmatter.
  destruct (Re.FRONTMATTER_RE (text f)) as [body|] eqn:E; [|done]. simpl.
  apply no_cr_frontmatter in E; [|apply universal_newlines_no_cr].
  pose proof (no_cr_parse _ E) as Hfm.
  case_bool_decide; [done|].
  destruct (_parse_yaml_flat body !! "name") as [n'|] eqn:En; [|done].
  intros [= <- <-]. split; [by apply (Hfm "name")|done].
Qed.

Lemma no_cr_description raw :
  has_char CR raw = false → has_char CR (extract_catalog_description raw) = false.
Proof.
  intros Hraw. unfold extract_catalog_description.
  set (cut := match Re.STOP_PATTERNS raw with Some start => Str.take start raw | None => raw end).
  assert (has_char CR cut = false) as Hcut.
  { unfold cut. destruct (Re.STOP_PATTERNS raw); [by apply no_cr_take|done]. }
  assert (has_char CR (Str.strip (Str.join " " (Str.split_ws cut))) = false) as Hd.
  { apply no_cr_strip, no_cr_join; [done|by apply no_cr_split_ws]. }
  destruct (_ && _); [|done]. by rewrite has_char_app, Hd.
Qed.

Lemma no_cr_catalog_description fm :
  map_Forall (λ _ v, has_char CR v = false) fm →
  has_char CR (catalog_description fm) = false.
Proof.
  intros Hfm. unfold catalog_description. apply no_cr_description.
  destruct (fm !! "description") eqn:E; [by apply (Hfm "description")|done].
Qed.

Lemma no_cr_title s : has_char CR s = false → has_char CR (Str.title s) = false.
Proof.
  unfold Str.title.
  assert (∀ prev, has_char CR s = false → has_char CR (Str.title_go prev s) = false)
    as H; [|apply H].
  induction s as [|c s IH]; intros prev; [done|]. cbn [Str.title_go has_char].
  intros [Hc Hs]%orb_false_iff.
  assert (Ascii.eqb (upper c) CR = false ∧ Ascii.eqb (lower c) CR = false) as [Hu Hl].
  { revert Hc. destruct c as [[] [] [] [] [] [] [] []]; by vm_compute. }
  destruct (islower c); [|destruct (isupper c)]; cbn [has_char]; rewrite IH by done;
    destruct prev; by rewrite ?Hc, ?Hu, ?Hl.
Qed.

(** *** The paths *)

Lemma no_cr_last p :
  no_cr p → has_char CR (default EmptyString (last p)) = false.
Proof.
  unfold no_cr. induction p as [|c p IH]; [done|]. cbn [forallb].
  intros [Hc Hp]%andb_prop_elim. destruct p as [|c' p]; [|by apply IH].
  simpl. by destruct (has_char CR c).
Qed.

Lemma no_cr_app p q : no_cr p → no_cr q → no_cr (p ++ q).
Proof. unfold no_cr. rewrite forallb_app. intros. by apply andb_prop_intro. Qed.

Lemma no_cr_removelast p : no_cr p → no_cr (removelast p).
Proof.
  unfold no_cr. induction p as [|c p IH]; [done|]. cbn [forallb removelast].
  intros [Hc Hp]%andb_prop_elim. destruct p as [|c' p]; [done|].
  cbn [forallb]. apply andb_prop_intro. split; [done|by apply IH].
Qed.

Lemma no_cr_path_join p : no_cr p → has_char CR (Str.join "/" p) = false.
Proof.
  intros Hp. apply no_cr_join; [done|].
  unfold no_cr in Hp. induction p as [|c p IH]; [done|]. cbn [forallb] in Hp.
  apply andb_prop_elim in Hp as [Hc Hp]. constructor; [|by apply IH].
  by destruct (has_char CR c).
Qed.

Lemma lacks_cr n d c p :
  has_char CR n = false → has_char CR d = false →
  has_char CR (default EmptyString c) = false → has_char CR p = false →
  lacks CR (Entry n d c p).
Proof. unfold lacks. simpl. by intros -> -> -> ->. Qed.

Lemma no_cr_rel_link f : no_cr (parts f) → has_char CR (rel_link f) = false.
Proof. intros. unfold rel_link. by rewrite has_char_app, no_cr_path_join. Qed.

(** *** The scanners *)

Section scanners.
Context (REPO_ROOT : list string) (Hroot : no_cr REPO_ROOT).

Lemma no_cr_rules files :
  Forall (λ f, no_cr (parts f)) files →
  Forall (lacks CR) (rules_loop REPO_ROOT files).1.
Proof.
  unfold rules_loop.
  assert (∀ acc, Forall (lacks CR) acc.1 → Forall (λ f, no_cr (parts f)) files →
                 Forall (lacks CR) (fold_left (rules_step REPO_ROOT) files acc).1) as H.
  { intros acc Hacc Hfiles. revert acc Hacc.
    induction Hfiles as [|f files Hf _ IH]; intros acc Hacc; [done|].
    simpl. apply IH. unfold rules_step.
    destruct (checked_frontmatter f) as [[n fm]|] eqn:E; [|done]. simpl.
    destruct (no_cr_checked_frontmatter _ _ _ E) as [Hn Hfm].
    apply Forall_app. split; [done|]. constructor; [|done].
    apply lacks_cr; [done|by apply no_cr_catalog_description|done|].
    unfold f_name. by rewrite has_char_app, no_cr_last. }
  by apply H.
Qed.

Lemma no_cr_skills files :
  Forall (λ f, no_cr (parts f)) files →
  map_Forall (λ _ l, Forall (lacks CR) l) (skills_loop REPO_ROOT files).1.
Proof.
  unfold skills_loop.
  assert (∀ acc, map_Forall (λ _ l, Forall (lacks CR) l) acc.1 →
                 Forall (λ f, no_cr (parts f)) files →
                 map_Forall (λ _ l, Forall (lacks CR) l)
                   (fold_left (skills_step REPO_ROOT) files acc).1) as H.
  { intros acc Hacc Hfiles. revert acc Hacc.
    induction Hfiles as [|f files Hf _ IH]; intros acc Hacc; [done|].
    simpl. apply IH. unfold skills_step.
    destruct (checked_frontmatter f) as [[n fm]|] eqn:E; [|done]. simpl.
    destruct (no_cr_checked_frontmatter _ _ _ E) as [Hn Hfm].
    apply map_Forall_insert_2; [|done].
    apply Forall_app. split.
    - destruct (acc.1 !! _skill_category f) eqn:El; [by apply (Hacc _ _ El)|done].
    - constructor; [|done].
      apply lacks_cr; [done|by apply no_cr_catalog_description|done|].
      by apply no_cr_rel_link. }
  intros Hfiles. apply H; [apply map_Forall_empty|done].
Qed.

Lemma no_cr_agents files :
  Forall (λ f, no_cr (parts f)) files →
  Forall (lacks CR) (agents_loop REPO_ROOT files).
Proof.
  unfold agents_loop.
  assert (∀ acc, Forall (lacks CR) acc → Forall (λ f, no_cr (parts f)) files →
                 Forall (lacks CR) (fold_left (agents_step REPO_ROOT) files acc)) as H.
  { intros acc Hacc Hfiles. revert acc Hacc.
    induction Hfiles as [|f files Hf _ IH]; intros acc Hacc; [done|].
    simpl. apply IH. unfold agents_step.
    case_bool_decide; [done|]. destruct (_ || _); [done|].
    destruct (checked_frontmatter f) as [[n fm]|] eqn:E; [|done].
    destruct (no_cr_checked_frontmatter _ _ _ E) as [Hn Hfm].
    apply Forall_app. split; [done|]. constructor; [|done].
    apply lacks_cr; [done|by apply no_cr_catalog_description| |by apply no_cr_rel_link].
    simpl. apply no_cr_title. unfold parent_name.
    by apply no_cr_last, no_cr_app, no_cr_removelast. }
  by apply H.
Qed.

End scanners.

Lemma no_cr_custom_skills files :
  Forall (λ f, no_cr (parts f)) files →
  Forall (lacks CR) (custom_skills_loop files).
Proof.
  unfold custom_skills_loop.
  assert (∀ acc, Forall (lacks CR) acc → Forall (λ f, no_cr (parts f)) files →
                 Forall (lacks CR) (fold_left custom_skills_step files acc)) as H.
  { intros acc Hacc Hfiles. revert acc Hacc.
    induction Hfiles as [|f files Hf _ IH]; intros acc Hacc; [done|].
    simpl. apply IH. unfold custom_skills_step.
    destruct (checked_frontmatter f) as [[n fm]|] eqn:E; [|done].
    destruct (no_cr_checked_frontmatter _ _ _ E) as [Hn Hfm].
    apply Forall_app. split; [done|]. constructor; [|done].
    apply lacks_cr; [done|by apply no_cr_catalog_description|done|by apply no_cr_rel_link]. }
  by apply H.
Qed.

Lemma no_cr_custom_agents files :
  Forall (λ f, no_cr (parts f)) files →
  Forall (lacks CR) (custom_agents_loop files).
Proof.
  unfold custom_agents_loop.
  assert (∀ acc, Forall (lacks CR) acc → Forall (λ f, no_cr (parts f)) files →
                 Forall (lacks CR) (fold_left custom_agents_step files acc)) as H.
  { intros acc Hacc Hfiles. revert acc Hacc.
    induction Hfiles as [|f files Hf _ IH]; intros acc Hacc; [done|].
    simpl. apply IH. unfold custom_agents_step, custom_skills_step.
    destruct (String.eqb _ _); [done|].
    destruct (checked_frontmatter f) as [[n fm]|] eqn:E; [|done].
    destruct (no_cr_checked_frontmatter _ _ _ E) as [Hn Hfm].
    apply Forall_app. split; [done|]. constructor; [|done].
    apply lacks_cr; [done|by apply no_cr_catalog_description|done|by apply no_cr_rel_link]. }
  by apply H.
Qed.

Lemma Forall_sorted_filter (Q : file → Prop) (P : file → bool) tree :
  Forall Q tree → Forall Q (sorted (filter (λ f, P f) tree)).
Proof.
  intros H. unfold sorted. rewrite merge_sort_Permutation.
  rewrite Forall_forall in *. intros f [_ Hf]%list_elem_of_filter. by apply H.
Qed.

(** The catalog holds no carriage return when no path of the tree does. *)
Lemma no_cr_render_catalog REPO_ROOT tree :
  no_cr REPO_ROOT → Forall (λ f, no_cr (parts f)) tree →
  has_char CR (render_catalog REPO_ROOT tree).1 = false.
Proof.
  intros Hroot Htree. unfold render_catalog.
  pose proof (no_cr_rules REPO_ROOT _ (Forall_sorted_filter _ (in_glob_md ["rules"]) _ Htree))
    as Hrules.
  pose proof (no_cr_skills REPO_ROOT _
                (Forall_sorted_filter _ (in_rglob_skill ["skills"]) _ Htree)) as Hskills.
  fold (glob_md ["rules"] tree) in Hrules.
  fold (rglob_skill ["skills"] tree) in Hskills.
  fold (discover_rules REPO_ROOT tree) in Hrules.
  fold (discover_skills REPO_ROOT tree) in Hskills.
  destruct (discover_rules REPO_ROOT tree) as [rules err1].
  destruct (discover_skills REPO_ROOT tree) as [skills_by_cat err2]. cbn [fst] in *.
  apply no_cr_join; [done|].
  apply render_lines_lack; [by right|done|done|..].
  - apply (no_cr_agents REPO_ROOT Hroot). by apply Forall_sorted_filter.
  - unfold discover_custom_skills. destruct (negb _); [done|].
    apply no_cr_custom_skills. by apply Forall_sorted_filter.
  - unfold discover_custom_agents. destruct (negb _); [done|].
    apply no_cr_custom_agents. by apply Forall_sorted_filter.
Qed.


(** ** The Custom section *)

Lemma skills_fold_no_star m cats x :
  x ∈ fold_left (skills_subsection m) cats [] → Str.startswith "*" x = false.
Proof.
  induction cats as [|cat cats IH]; simpl; [by intros ?%elem_of_nil|].
  rewrite skills_fold_prefix. intros [H|H]%elem_of_app; [|by apply IH].
  unfold skills_subsection in H. case_bool_decide; [by apply elem_of_nil in H|].
  split_mem H; subst; reflexivity.
Qed.

(** The note among the elements of the list [lines]. *)
Lemma placeholder_in_lines rules m agents custom_skills custom_agents :
  "*Your project-specific skills and agents — not tracked by upstream. See [custom/README.md](../custom/README.md) to get started.*"
  ∈ render_lines rules m agents custom_skills custom_agents
  ↔ custom_skills = [] ∧ custom_agents = [].
Proof.
  split.
  - generalize ("*Your project-specific skills and agents — not tracked by upstream. See [custom/README.md](../custom/README.md) to get started.*")
      (eq_refl : Str.startswith "*Y" "*Your project-specific skills and agents — not tracked by upstream. See [custom/README.md](../custom/README.md) to get started.*" = true).
    intros x Hx Hin. unfold render_lines in Hin.
    rewrite (skills_fold_prefix m SKILL_CATEGORY_ORDER) in Hin.
    set (subsections := fold_left (skills_subsection m) SKILL_CATEGORY_ORDER []) in *.
    repeat case_bool_decide; cbn [negb orb] in Hin; try done; exfalso;
      split_mem Hin; subst;
      first [ by vm_compute in Hx
            | apply skills_fold_no_star in Hin;
              destruct x as [|c x]; [done|]; cbn [Str.startswith String.prefix] in *;
              destruct (ascii_dec "*" c); [by destruct x|done] ].
  - intros [-> ->]. unfold render_lines. cbn [bool_decide negb orb]. simpl. find_mem.
Qed.

(** X17: where no entry holds a newline, the note that stands for the
    custom entries is a line of the document exactly when the scanners
    found neither custom skills nor custom agents. *)
Theorem custom_placeholder_iff rules m agents custom_skills custom_agents :
  Forall one_line rules → map_Forall (λ _ l, Forall one_line l) m →
  Forall one_line agents → Forall one_line custom_skills → Forall one_line custom_agents →
  "*Your project-specific skills and agents — not tracked by upstream. See [custom/README.md](../custom/README.md) to get started.*"
  ∈ lines_of (Str.join newline (render_lines rules m agents custom_skills custom_agents))
  ↔ custom_skills = [] ∧ custom_agents = [].
Proof.
  intros. rewrite lines_of_render by done. apply placeholder_in_lines.
Qed.

Lemma custom_placeholder_witness :
  "*Your project-specific skills and agents — not tracked by upstream. See [custom/README.md](../custom/README.md) to get started.*"
  ∉ lines_of
      (Str.join newline
         (render_lines [] ∅ []
            [Entry "deploy" "Deploys." None "../custom/skills/deploy/SKILL.md"] [])).
Proof.
  intros H.
  refine (_ (proj1 (custom_placeholder_iff [] ∅ []
             [Entry "deploy" "Deploys." None "../custom/skills/deploy/SKILL.md"] []
             _ _ _ _ _) H)).
  - intros [? _]. discriminate.
  - constructor.
  - apply map_Forall_empty.
  - constructor.
  - by repeat constructor.
  - constructor.
Defined.

(** ** Writing the catalog *)

Lemma put_file_cons p s f tree :
  put_file p s (f :: tree)
  = if decide (parts f = p) then File p s :: tree else f :: put_file p s tree.
Proof.
  unfold put_file. cbn [list_find]. case_decide; [done|].
  destruct (list_find _ tree) as [[i y]|]; done.
Qed.

Lemma put_file_elem p s tree : File p s ∈ put_file p s tree.
Proof.
  induction tree as [|f tree IH].
  - apply list_elem_of_here.
  - rewrite put_file_cons. case_decide.
    + apply list_elem_of_here.
    + by apply list_elem_of_further.
Qed.

Lemma put_file_others p s tree f :
  parts f ≠ p → f ∈ put_file p s tree ↔ f ∈ tree.
Proof.
  intros Hf. induction tree as [|g tree IH].
  - unfold put_file. simpl. rewrite elem_of_cons.
    split; [intros [->|?]; [done|done]|by intros ?%elem_of_nil].
  - rewrite put_file_cons. case_decide as Hg.
    + rewrite !elem_of_cons. split; (intros [->|?]; [done|by right]).
    + by rewrite !elem_of_cons, IH.
Qed.

Lemma read_put_file p s tree :
  read_text p (put_file p s tree) = inr (universal_newlines s).
Proof.
  unfold read_text.
  assert (∃ i, list_find (λ f, parts f = p) (put_file p s tree) = Some (i, File p s))
    as [i ->]; [|done].
  induction tree as [|f tree IH].
  - exists 0. unfold put_file. simpl. by rewrite decide_True.
  - rewrite put_file_cons. case_decide.
    + exists 0. simpl. by rewrite decide_True.
    + destruct IH as [i IH]. exists (S i). simpl. by rewrite decide_False, IH.
Qed.

Lemma put_file_twice p s s' tree :
  put_file p s (put_file p s' tree) = put_file p s tree.
Proof.
  induction tree as [|f tree IH].
  - unfold put_file. simpl. by rewrite decide_True.
  - rewrite !put_file_cons. case_decide.
    + rewrite put_file_cons. simpl. by rewrite decide_True.
    + rewrite put_file_cons. rewrite decide_False by done. by rewrite IH.
Qed.

Lemma is_file_put_file p s tree : is_file p (put_file p s tree) = true.
Proof.
  unfold is_file. apply existsb_exists. exists (File p s).
  split; [apply list_elem_of_In, put_file_elem|by apply bool_decide_eq_true_2].
Qed.

Lemma filter_put_file (P : file → Prop) `{∀ f, Decision (P f)} p s tree :
  (∀ f, parts f = p → ¬ P f) →
  filter P (put_file p s tree) = filter P tree.
Proof.
  intros HP. induction tree as [|f tree IH].
  - unfold put_file. simpl. rewrite filter_cons, decide_False; [done|by apply HP].
  - rewrite put_file_cons. case_decide as Hf.
    + rewrite !filter_cons, !decide_False; [done|by apply HP..].
    + rewrite !filter_cons, IH. done.
Qed.

Lemma dir_exists_put_file dir p s tree :
  below dir p = None →
  dir_exists dir (put_file p s tree) = dir_exists dir tree.
Proof.
  intros Hp. unfold dir_exists. apply bool_decide_ext.
  induction tree as [|f tree IH].
  - unfold put_file. simpl. rewrite Exists_cons, !Exists_nil. simpl. rewrite Hp.
    split; [by intros [[? [=]]|?]|done].
  - rewrite put_file_cons. case_decide as Hf.
    + rewrite !Exists_cons. simpl. rewrite Hf, Hp.
      split; (intros [[? [=]]|?]; by right).
    + by rewrite !Exists_cons, IH.
Qed.

(** The catalog is no input of the renderer: writing it changes nothing of
    what the scanners see. *)
Lemma render_catalog_put_file REPO_ROOT s tree :
  render_catalog REPO_ROOT (put_file output_path s tree)
  = render_catalog REPO_ROOT tree.
Proof.
  unfold render_catalog, discover_rules, discover_skills, discover_agents,
    discover_custom_skills, discover_custom_agents.
  unfold glob_md, rglob_md, rglob_skill.
  rewrite !dir_exists_put_file by done.
  rewrite !filter_put_file; [done|..];
    intros f Hf;
    unfold in_glob_md, in_rglob_md, in_rglob_skill, f_name; rewrite Hf;
    vm_compute; tauto.
Qed.

(** A text without a carriage return is read as it was written. *)
Lemma universal_newlines_id s : has_char CR s = false → universal_newlines s = s.
Proof.
  induction s as [|c s IH]; [done|]. simpl.
  intros [Hc Hs]%orb_false_iff. rewrite Hc. by rewrite IH.
Qed.

Lemma main_write REPO_ROOT argv w :
  "--check" ∉ argv → is_file output_path (fs w) = true →
  main REPO_ROOT argv w
  = (World (put_file output_path (render_catalog REPO_ROOT (fs w)).1 (fs w))
       (stdout w ++ ["Generated " +:+ abs_str REPO_ROOT output_path])
       (stderr w ++ (render_catalog REPO_ROOT (fs w)).2), Exit 0).
Proof.
  intros Hc Hf. unfold main, write_text. rewrite bool_decide_eq_false_2, Hf by done.
  by destruct (render_catalog REPO_ROOT (fs w)).
Qed.




